(** * Cart search consistency check: a shallow embedding

    The script under verification performs a search on an encoded server,
    writes the resulting [@id]s to a cart, performs a cart search and
    compares both lists with [compareCarts].  Its helper module builds the
    Basic authorization header ([keypairToAuth]) and reads the key file
    ([readKeyfile]).

    JavaScript strings are sequences of UTF-16 code units; they are
    modelled as [list N].  Buffers are sequences of octets, also [list N]. *)

From Stdlib Require Import List NArith ZArith Bool String Ascii Lia.
From Stdlib Require Import Permutation Sorted.
Import ListNotations.

Set Implicit Arguments.

(** ** JavaScript strings *)

Module JsString.

Definition jsstring := list N.

(** A literal of the source, written with ASCII characters only. *)
Definition lit (s : string) : jsstring :=
  map N_of_ascii (list_ascii_of_string s).

(** [a === b] on strings. *)
Fixpoint eqb (a b : jsstring) : bool :=
  match a, b with
  | [], [] => true
  | x :: a', y :: b' => N.eqb x y && eqb a' b'
  | _, _ => false
  end.

(** [a < b] on strings: code units are compared from the left, and a proper
    prefix is smaller. *)
Fixpoint ltb (a b : jsstring) : bool :=
  match a, b with
  | _, [] => false
  | [], _ :: _ => true
  | x :: a', y :: b' =>
      if N.ltb x y then true
      else if N.ltb y x then false
      else ltb a' b'
  end.

(** The order [a <= b], as a proposition: [b] is not smaller than [a]. *)
Definition le (a b : jsstring) : Prop := ltb b a = false.

End JsString.

Import JsString.

Local Open Scope string_scope.
Local Open Scope list_scope.

(** ** The comparator: [_.sortBy] and [compareCarts] *)

Module Underscore.

(** [Array.prototype.filter]: the callback receives the element and its
    index. *)
Fixpoint filter_from {A} (f : A -> nat -> bool) (index : nat) (l : list A)
  : list A :=
  match l with
  | [] => []
  | x :: l' =>
      if f x index then x :: filter_from f (S index) l'
      else filter_from f (S index) l'
  end.

Definition Array_filter {A} (f : A -> nat -> bool) (l : list A) : list A :=
  filter_from f 0 l.

(** [Array.prototype.sort(comparefn)].  The standard leaves the algorithm to
    the engine; the comparator of [_.sortBy] below is a total order on the
    decorated entries (ties are broken by index), so that all conforming
    engines return the same array (see [Array_sort_unique]).  Insertion from
    the right is used as the executable representative. *)
Section Sort.
Variable A : Type.
Variable comparefn : A -> A -> Z.

Fixpoint sort_insert (x : A) (l : list A) : list A :=
  match l with
  | [] => [x]
  | y :: l' =>
      if (comparefn x y <=? 0)%Z then x :: y :: l'
      else y :: sort_insert x l'
  end.

Fixpoint Array_sort (l : list A) : list A :=
  match l with
  | [] => []
  | x :: l' => sort_insert x (Array_sort l')
  end.

(** What [sort] guarantees of its result: [comparefn x y <= 0] whenever
    [x] is placed before [y]. *)
Definition before (x y : A) : Prop := (comparefn x y <= 0)%Z.
End Sort.

(** The objects [_.sortBy] builds: [{value, index, criteria}]. *)
Record entry := { value : jsstring; index : nat; criteria : jsstring }.

(** The comparator passed to [sort] by [_.sortBy]:
<<
  var a = left.criteria; var b = right.criteria;
  if (a !== b) {
    if (a > b || a === void 0) return 1;
    if (a < b || b === void 0) return -1;
  }
  return left.index - right.index;
>>
    The criteria are strings here, never [undefined]. *)
Definition sortBy_compare (left right : entry) : Z :=
  let a := criteria left in
  let b := criteria right in
  if negb (eqb a b) then
    if ltb b a then 1%Z
    else if ltb a b then (-1)%Z
    else (Z.of_nat (index left) - Z.of_nat (index right))%Z
  else (Z.of_nat (index left) - Z.of_nat (index right))%Z.

(** [_.map(obj, function(value) { return {value, index: index++, criteria} })]
    with the identity iteratee, as [_.sortBy(list)] is called without one. *)
Fixpoint decorate (index : nat) (obj : list jsstring) : list entry :=
  match obj with
  | [] => []
  | v :: obj' =>
      {| value := v; index := index; criteria := v |} :: decorate (S index) obj'
  end.

(** [_.sortBy(obj)] = [_.pluck(_.map(obj, ...).sort(...), 'value')]. *)
Definition sortBy (obj : list jsstring) : list jsstring :=
  map value (Array_sort sortBy_compare (decorate 0 obj)).

End Underscore.

Import Underscore.

(** The value of [compareCarts]: [false], or an array of identifiers. *)
Inductive differences :=
| DFalse
| DArray (items : list jsstring).

(** [cart0Item !== sortedCart1[index]]: an index past the end reads
    [undefined], which differs from every string. *)
Definition strict_neq_at (item : jsstring) (arr : list jsstring) (index : nat)
  : bool :=
  match nth_error arr index with
  | Some other => negb (eqb item other)
  | None => true
  end.

Definition compareCarts (cart0 cart1 : list jsstring) : differences :=
  if Nat.eqb (List.length cart0) (List.length cart1) then
    let sortedCart0 := sortBy cart0 in
    let sortedCart1 := sortBy cart1 in
    DArray (Array_filter
              (fun cart0Item index => strict_neq_at cart0Item sortedCart1 index)
              sortedCart0)
  else DFalse.

(** ** JavaScript values, errors and effects *)

Module Js.

#[local] Set Warnings "-register-all".

(** The values the script handles: what [JSON.parse] produces, [undefined],
    and the built-in functions that a property read may find on a prototype.
    Numbers are never inspected by the script; only integers are
    represented. *)
Inductive val :=
| VUndefined
| VNull
| VBool (b : bool)
| VNumber (n : Z)
| VString (s : jsstring)
| VArray (items : list val)
| VObject (props : list (jsstring * val))
| VFunction (name : jsstring).

(** Errors reported by the platform (network, file system) are opaque. *)
Definition host_error := string.

(** A [Response] of node-fetch: [response.ok] is derived from the status,
    [response.json()] parses the body. *)
Record response := { status : N; body : jsstring }.

Definition ok (r : response) : bool :=
  (200 <=? status r)%N && (status r <? 300)%N.

Inductive exn :=
| TypeError (msg : string)
| URIError (msg : string)
| SyntaxError                       (* [JSON.parse] *)
| FetchError (e : host_error)       (* [fetch], [response.json()] *)
| SystemError (e : host_error)      (* error of [fs.readFile] *)
| ErrorNotOk (r : response)         (* [new Error(`not ok ${...}`)] *)
| ErrorOf (r : response).           (* [new Error(response)] *)

(** The completion of a statement or the settlement of a promise. *)
Inductive outcome (A : Type) :=
| Resolved (a : A)
| Thrown (e : exn).
Arguments Resolved {A} a.
Arguments Thrown {A} e.

Inductive http_method := GET | PUT.

(** A request as the script issues it.  The [Accept] and [Content-Type]
    headers are the constant [application/json]. *)
Record request := {
  req_method : http_method;
  req_url : jsstring;
  req_authorization : jsstring;
  req_body : option jsstring
}.

Inductive stream := Stdout | Stderr.

Inductive log_arg :=
| LogError (e : exn)
| LogValue (v : val)
| LogDifferences (d : differences).

(** One call of [console.log] (stdout) or [console.error] (stderr). *)
Record log_entry := {
  log_stream : stream;
  log_format : string;
  log_args : list log_arg
}.

(** What a run leaves behind: the console and the requests sent so far. *)
Record world := { console : list log_entry; requests : list request }.

(** The names the script reads with a literal key. *)
Definition script_keys : list jsstring :=
  [lit "@graph"; lit "@id"; lit "elements"; lit "0"; lit "identifier";
   lit "server"; lit "key"; lit "secret"].

(** The platform the script runs on.  [rt_fetch] answers a request given
    the requests sent before it, so that the server may change its answers
    after a [PUT].  [rt_proto v k] is what the prototype chain of [v] holds
    under the name [k] when [v] has no own property [k]; no built-in
    prototype defines one of the [script_keys]. *)
Record runtime := {
  rt_readFile : val -> string -> host_error + jsstring;
  rt_JSON_parse : jsstring -> option val;
  rt_JSON_stringify : val -> jsstring;
  rt_ToString : val -> jsstring;
  rt_fetch : list request -> request -> host_error + response;
  rt_proto : val -> jsstring -> val;
  rt_proto_script :
    forall v k, In k script_keys -> rt_proto v k = VUndefined
}.

(** *** Property access *)

Fixpoint assoc (k : jsstring) (props : list (jsstring * val))
  : option val :=
  match props with
  | [] => None
  | (k', v) :: props' => if eqb k k' then Some v else assoc k props'
  end.

Definition digit (c : N) : option nat :=
  if ((48 <=? c) && (c <=? 57))%N then Some (N.to_nat (c - 48)) else None.

Fixpoint decimal (acc : nat) (k : jsstring) : option nat :=
  match k with
  | [] => Some acc
  | c :: k' =>
      match digit c with
      | Some d => decimal (10 * acc + d) k'
      | None => None
      end
  end.

(** The array index a property key denotes, if it is a canonical numeric
    string: ["0"], ["7"], ["12"], but not ["01"] or [""]. *)
Definition array_index (k : jsstring) : option nat :=
  match k with
  | [] => None
  | [c] => digit c
  | c :: _ => if (c =? 48)%N then None else decimal 0 k
  end.

Definition own_property (v : val) (k : jsstring) : option val :=
  match v with
  | VObject props => assoc k props
  | VArray items =>
      if eqb k (lit "length") then Some (VNumber (Z.of_nat (List.length items)))
      else match array_index k with
           | Some i => nth_error items i
           | None => None
           end
  | VString s =>
      if eqb k (lit "length") then Some (VNumber (Z.of_nat (List.length s)))
      else match array_index k with
           | Some i => option_map (fun c => VString [c]) (nth_error s i)
           | None => None
           end
  | _ => None
  end.

(** [v[k]] where [v] is neither [undefined] nor [null]. *)
Definition field (rt : runtime) (v : val) (k : jsstring) : val :=
  match own_property v k with
  | Some x => x
  | None => rt_proto rt v k
  end.

(** [v[k]] and [v.k]. *)
Definition Get (rt : runtime) (v : val) (k : jsstring) : outcome val :=
  match v with
  | VUndefined => Thrown (TypeError "Cannot read property of undefined")
  | VNull => Thrown (TypeError "Cannot read property of null")
  | _ => Resolved (field rt v k)
  end.

Fixpoint assoc_set (k : jsstring) (x : val) (props : list (jsstring * val))
  : list (jsstring * val) :=
  match props with
  | [] => [(k, x)]
  | (k', v) :: props' =>
      if eqb k k' then (k, x) :: props' else (k', v) :: assoc_set k x props'
  end.

(** [v.k = x] for a name [k] that is not an index, in a script that is not
    in strict mode; the result is [v] after the assignment.  An assignment to
    a primitive is dropped.  On an array it creates a named property, which
    neither [JSON.stringify] nor a read of another name observes, so the
    array is returned as it is. *)
Definition Put (v : val) (k : jsstring) (x : val) : outcome val :=
  match v with
  | VUndefined => Thrown (TypeError "Cannot set property of undefined")
  | VNull => Thrown (TypeError "Cannot set property of null")
  | VObject props => Resolved (VObject (assoc_set k x props))
  | _ => Resolved v
  end.

(** Conversion to string in a template literal or a property key.  Objects
    and arrays are converted by the platform ([rt_ToString]).  In JavaScript
    the conversion of an object that has an own property [toString] which is
    not a function throws a [TypeError]; such values are not told apart here,
    and what is proved of a client concerns the calls whose template literal
    can be evaluated. *)
Definition ToString (rt : runtime) (v : val) : jsstring :=
  match v with
  | VString s => s
  | VUndefined => lit "undefined"
  | VNull => lit "null"
  | VBool true => lit "true"
  | VBool false => lit "false"
  | _ => rt_ToString rt v
  end.

(** *** Promises: state and exceptions *)

Definition M (A : Type) := world -> outcome A * world.

Definition ret {A} (a : A) : M A := fun w => (Resolved a, w).

Definition throw {A} (e : exn) : M A := fun w => (Thrown e, w).

(** [await p; k], and [p.then(k)]: a rejection skips [k]. *)
Definition bind {A B} (p : M A) (k : A -> M B) : M B :=
  fun w =>
    match p w with
    | (Resolved a, w') => k a w'
    | (Thrown e, w') => (Thrown e, w')
    end.

(** [p.catch(handler)]. *)
Definition catch {A} (p : M A) (handler : exn -> M A) : M A :=
  fun w =>
    match p w with
    | (Resolved a, w') => (Resolved a, w')
    | (Thrown e, w') => handler e w'
    end.

Definition lift {A} (o : outcome A) : M A := fun w => (o, w).

(** [console.log] and [console.error] return [undefined]. *)
Definition console_write (s : stream) (format : string) (args : list log_arg)
  : M val :=
  fun w =>
    (Resolved VUndefined,
     {| console := console w ++ [{| log_stream := s; log_format := format;
                                    log_args := args |}];
        requests := requests w |}).

Definition fetch (rt : runtime) (r : request) : M response :=
  fun w =>
    (match rt_fetch rt (requests w) r with
     | inr resp => Resolved resp
     | inl e => Thrown (FetchError e)
     end,
     {| console := console w; requests := requests w ++ [r] |}).

(** [response.json()]: on a body that is not JSON node-fetch rejects with a
    [FetchError] of type [invalid-json]. *)
Definition response_json (rt : runtime) (r : response) : M val :=
  match rt_JSON_parse rt (body r) with
  | Some v => ret v
  | None => throw (FetchError "invalid-json")
  end.

End Js.

Import Js.

Declare Scope js_scope.
Delimit Scope js_scope with js.
Notation "x <- p ;; k" := (bind p (fun x => k))
  (at level 61, p at next level, right associativity) : js_scope.
Local Open Scope js_scope.

(** ** The Auth Encoder: [keypairToAuth] *)

Module Auth.

Local Open Scope N_scope.

(** *** UTF-16 and UTF-8 *)

Definition is_lead (c : N) : bool := (0xD800 <=? c) && (c <=? 0xDBFF).
Definition is_trail (c : N) : bool := (0xDC00 <=? c) && (c <=? 0xDFFF).

(** [CodePointAt(string, k)] for the code unit [first] at [k] and the rest
    of the string: the code point and the number of code units it takes, or
    [None] for an unpaired surrogate. *)
Definition CodePointAt (first : N) (rest : jsstring) : option (N * nat) :=
  if negb (is_lead first || is_trail first) then Some (first, 1%nat)
  else if is_trail first then None
  else match rest with
       | [] => None
       | second :: _ =>
           if is_trail second
           then Some ((first - 0xD800) * 0x400 + (second - 0xDC00) + 0x10000,
                      2%nat)
           else None
       end.

(** The octets of the UTF-8 encoding of a code point. *)
Definition utf8_octets (cp : N) : list N :=
  if cp <? 0x80 then [cp]
  else if cp <? 0x800 then
    [N.lor 0xC0 (N.shiftr cp 6); N.lor 0x80 (N.land cp 0x3F)]
  else if cp <? 0x10000 then
    [N.lor 0xE0 (N.shiftr cp 12);
     N.lor 0x80 (N.land (N.shiftr cp 6) 0x3F);
     N.lor 0x80 (N.land cp 0x3F)]
  else
    [N.lor 0xF0 (N.shiftr cp 18);
     N.lor 0x80 (N.land (N.shiftr cp 12) 0x3F);
     N.lor 0x80 (N.land (N.shiftr cp 6) 0x3F);
     N.lor 0x80 (N.land cp 0x3F)].

(** *** [encodeURIComponent] *)

(** The characters left as they are: letters, digits and [- _ . ! ~ * ' ( )]. *)
Definition unreserved (c : N) : bool :=
  ((65 <=? c) && (c <=? 90)) || ((97 <=? c) && (c <=? 122)) ||
  ((48 <=? c) && (c <=? 57)) ||
  existsb (N.eqb c) [45; 95; 46; 33; 126; 42; 39; 40; 41].

(** An upper-case hexadecimal digit. *)
Definition hex_digit (n : N) : N := if n <? 10 then 48 + n else 55 + n.

(** [%XX] for one octet. *)
Definition percent (octet : N) : jsstring :=
  [37; hex_digit (N.shiftr octet 4); hex_digit (N.land octet 15)].

Definition on_resolved {A B} (f : A -> B) (o : outcome A) : outcome B :=
  match o with
  | Resolved a => Resolved (f a)
  | Thrown e => Thrown e
  end.

(** The loop of [Encode]: [skip] code units remain of the code point that
    was encoded last.  An unpaired surrogate throws a [URIError]. *)
Fixpoint encode_from (skip : nat) (s : jsstring) : outcome jsstring :=
  match s with
  | [] => Resolved []
  | c :: s' =>
      match skip with
      | S n => encode_from n s'
      | O =>
          if unreserved c then on_resolved (cons c) (encode_from 0 s')
          else match CodePointAt c s' with
               | None => Thrown (URIError "URI malformed")
               | Some (cp, count) =>
                   on_resolved (app (List.concat (map percent (utf8_octets cp))))
                               (encode_from (count - 1) s')
               end
      end
  end.

Definition encodeURIComponent (s : jsstring) : outcome jsstring :=
  encode_from 0 s.

(** *** [unescape] *)

Definition hex_value (c : N) : option N :=
  if (48 <=? c) && (c <=? 57) then Some (c - 48)
  else if (65 <=? c) && (c <=? 70) then Some (c - 55)
  else if (97 <=? c) && (c <=? 102) then Some (c - 87)
  else None.

(** The code unit written by the hexadecimal digits [ds], if all are. *)
Fixpoint hex_number (acc : N) (ds : jsstring) : option N :=
  match ds with
  | [] => Some acc
  | d :: ds' =>
      match hex_value d with
      | Some v => hex_number (16 * acc + v) ds'
      | None => None
      end
  end.

(** After a [%]: [uXXXX] with four hexadecimal digits. *)
Definition escape_u (rest : jsstring) : option N :=
  match rest with
  | u :: d1 :: d2 :: d3 :: d4 :: _ =>
      if u =? 117 then hex_number 0 [d1; d2; d3; d4] else None
  | _ => None
  end.

(** After a [%]: [XX] with two hexadecimal digits. *)
Definition escape_x (rest : jsstring) : option N :=
  match rest with
  | d1 :: d2 :: _ => hex_number 0 [d1; d2]
  | _ => None
  end.

(** The loop of [unescape]: [skip] code units remain of the escape sequence
    that was decoded last. *)
Fixpoint unescape_from (skip : nat) (s : jsstring) : jsstring :=
  match s with
  | [] => []
  | c :: s' =>
      match skip with
      | S n => unescape_from n s'
      | O =>
          if c =? 37 then
            match escape_u s' with
            | Some code => code :: unescape_from 5 s'
            | None =>
                match escape_x s' with
                | Some code => code :: unescape_from 2 s'
                | None => c :: unescape_from 0 s'
                end
            end
          else c :: unescape_from 0 s'
      end
  end.

Definition unescape (s : jsstring) : jsstring := unescape_from 0 s.

(** *** [Buffer.from(string)] and [buf.toString('base64')] *)

(** [Buffer.from(string)] encodes the string as UTF-8, the default
    encoding; an unpaired surrogate becomes U+FFFD. *)
Fixpoint buffer_from (skip : nat) (s : jsstring) : list N :=
  match s with
  | [] => []
  | c :: s' =>
      match skip with
      | S n => buffer_from n s'
      | O =>
          match CodePointAt c s' with
          | None => [0xEF; 0xBF; 0xBD] ++ buffer_from 0 s'
          | Some (cp, count) => utf8_octets cp ++ buffer_from (count - 1) s'
          end
      end
  end.

Definition Buffer_from (s : jsstring) : list N := buffer_from 0 s.

(** The base64 alphabet: [A-Z], [a-z], [0-9], [+], [/]. *)
Definition base64_char (sextet : N) : N :=
  if sextet <? 26 then 65 + sextet
  else if sextet <? 52 then 97 + (sextet - 26)
  else if sextet <? 62 then 48 + (sextet - 52)
  else if sextet =? 62 then 43
  else 47.

Fixpoint toString_base64 (buf : list N) : jsstring :=
  match buf with
  | [] => []
  | [a] =>
      [base64_char (N.shiftr a 2);
       base64_char (N.shiftl (N.land a 3) 4);
       61; 61]
  | [a; b] =>
      [base64_char (N.shiftr a 2);
       base64_char (N.lor (N.shiftl (N.land a 3) 4) (N.shiftr b 4));
       base64_char (N.shiftl (N.land b 15) 2);
       61]
  | a :: b :: c :: rest =>
      [base64_char (N.shiftr a 2);
       base64_char (N.lor (N.shiftl (N.land a 3) 4) (N.shiftr b 4));
       base64_char (N.lor (N.shiftl (N.land b 15) 2) (N.shiftr c 6));
       base64_char (N.land c 63)]
      ++ toString_base64 rest
  end.

(** [`Basic ${Buffer.from(unescape(encodeURIComponent(`${key}:${secret}`)))
             .toString('base64')}`] *)
Definition keypairToAuth (key secret : jsstring) : outcome jsstring :=
  on_resolved
    (fun escaped =>
       lit "Basic " ++ toString_base64 (Buffer_from (unescape escaped)))
    (encodeURIComponent (key ++ lit ":" ++ secret)).

(** *** Reading a header back

    The decoding the round-trip property speaks of: strip ["Basic "],
    decode the base64 payload, read the octets as UTF-8 and split the
    string at its first colon. *)

Definition base64_value (c : N) : option N :=
  if (65 <=? c) && (c <=? 90) then Some (c - 65)
  else if (97 <=? c) && (c <=? 122) then Some (c - 97 + 26)
  else if (48 <=? c) && (c <=? 57) then Some (c - 48 + 52)
  else if c =? 43 then Some 62
  else if c =? 47 then Some 63
  else None.

Definition quantum (c0 c1 c2 c3 : N) : option (list N) :=
  match base64_value c0, base64_value c1 with
  | Some s0, Some s1 =>
      let b0 := N.lor (N.shiftl s0 2) (N.shiftr s1 4) in
      if c3 =? 61 then
        if c2 =? 61 then Some [b0]
        else match base64_value c2 with
             | Some s2 =>
                 Some [b0; N.lor (N.shiftl (N.land s1 15) 4) (N.shiftr s2 2)]
             | None => None
             end
      else match base64_value c2, base64_value c3 with
           | Some s2, Some s3 =>
               Some [b0;
                     N.lor (N.shiftl (N.land s1 15) 4) (N.shiftr s2 2);
                     N.lor (N.shiftl (N.land s2 3) 6) s3]
           | _, _ => None
           end
  | _, _ => None
  end.

Fixpoint base64_decode (cs : jsstring) : option (list N) :=
  match cs with
  | [] => Some []
  | c0 :: c1 :: c2 :: c3 :: rest =>
      match quantum c0 c1 c2 c3 with
      | Some octets =>
          if (c3 =? 61) then
            match rest with [] => Some octets | _ => None end
          else option_map (app octets) (base64_decode rest)
      | None => None
      end
  | _ => None
  end.

Definition continuation (b : N) : bool := (0x80 <=? b) && (b <=? 0xBF).

(** The code units of a code point. *)
Definition utf16_units (cp : N) : jsstring :=
  if cp <? 0x10000 then [cp]
  else [0xD800 + N.shiftr (cp - 0x10000) 10;
        0xDC00 + N.land (cp - 0x10000) 0x3FF].

(** Strict UTF-8 decoding: overlong forms, surrogates and truncated
    sequences are rejected. *)
Fixpoint utf8_decode (bs : list N) : option jsstring :=
  match bs with
  | [] => Some []
  | b0 :: r0 =>
      if b0 <? 0x80 then option_map (cons b0) (utf8_decode r0)
      else if (0xC2 <=? b0) && (b0 <=? 0xDF) then
        match r0 with
        | b1 :: r1 =>
            if continuation b1 then
              option_map
                (cons (N.lor (N.shiftl (N.land b0 0x1F) 6) (N.land b1 0x3F)))
                (utf8_decode r1)
            else None
        | _ => None
        end
      else if (0xE0 <=? b0) && (b0 <=? 0xEF) then
        match r0 with
        | b1 :: b2 :: r2 =>
            let cp := N.lor (N.shiftl (N.land b0 0x0F) 12)
                        (N.lor (N.shiftl (N.land b1 0x3F) 6) (N.land b2 0x3F)) in
            if continuation b1 && continuation b2 && (0x800 <=? cp)
               && negb (is_lead cp || is_trail cp)
            then option_map (cons cp) (utf8_decode r2)
            else None
        | _ => None
        end
      else if (0xF0 <=? b0) && (b0 <=? 0xF4) then
        match r0 with
        | b1 :: b2 :: b3 :: r3 =>
            let cp := N.lor (N.shiftl (N.land b0 0x07) 18)
                        (N.lor (N.shiftl (N.land b1 0x3F) 12)
                           (N.lor (N.shiftl (N.land b2 0x3F) 6)
                              (N.land b3 0x3F))) in
            if continuation b1 && continuation b2 && continuation b3
               && (0x10000 <=? cp) && (cp <=? 0x10FFFF)
            then option_map (app (utf16_units cp)) (utf8_decode r3)
            else None
        | _ => None
        end
      else None
  end.

Fixpoint strip_prefix (prefix s : jsstring) : option jsstring :=
  match prefix, s with
  | [], _ => Some s
  | p :: prefix', c :: s' => if p =? c then strip_prefix prefix' s' else None
  | _ :: _, [] => None
  end.

(** Split at the first [:]. *)
Fixpoint split_colon (s : jsstring) : option (jsstring * jsstring) :=
  match s with
  | [] => None
  | c :: s' =>
      if c =? 58 then Some ([], s')
      else option_map (fun kv => (c :: fst kv, snd kv)) (split_colon s')
  end.

Definition decode_auth (header : jsstring) : option (jsstring * jsstring) :=
  match strip_prefix (lit "Basic ") header with
  | Some payload =>
      match base64_decode payload with
      | Some octets =>
          match utf8_decode octets with
          | Some text => split_colon text
          | None => None
          end
      | None => None
      end
  | None => None
  end.

(** A string of ASCII characters. *)
Definition ascii_only (s : jsstring) : Prop := Forall (fun c => c < 128) s.

(** The round trip of one key pair: the header exists and reads back as the
    pair it was built from. *)
Definition round_trip (key secret : jsstring) : Prop :=
  exists header,
    keypairToAuth key secret = Resolved header /\
    decode_auth header = Some (key, secret).

(** A string without unpaired surrogates: every lead surrogate is followed
    by a trail surrogate and every trail surrogate follows a lead. *)
Fixpoint well_formed (s : jsstring) : bool :=
  match s with
  | [] => true
  | c :: s' =>
      if is_lead c then
        match s' with
        | d :: s'' => is_trail d && well_formed s''
        | [] => false
        end
      else negb (is_trail c) && well_formed s'
  end.

(** Code units are 16 bits wide. *)
Definition sixteen_bit (s : jsstring) : Prop := Forall (fun c => c < 65536) s.

(** Octets are 8 bits wide. *)
Definition octets (s : list N) : Prop := Forall (fun b => b < 256) s.

(** The numbers below [n], for checks by enumeration. *)
Definition below (n : nat) : list N := map N.of_nat (seq 0 n).

End Auth.

Import Auth.

(** ** The script: clients, key file and [main] *)

Module Script.

Definition obind {A B} (o : outcome A) (k : A -> outcome B) : outcome B :=
  match o with
  | Resolved a => k a
  | Thrown e => Thrown e
  end.

(** [Array.prototype.map]: the first callback that throws ends the walk. *)
Fixpoint Array_map (callback : val -> outcome val) (items : list val)
  : outcome (list val) :=
  match items with
  | [] => Resolved []
  | x :: items' =>
      obind (callback x) (fun y =>
      obind (Array_map callback items') (fun ys => Resolved (y :: ys)))
  end.

(** [g.map(callback)].  Only arrays have a [map] method: on [undefined] or
    [null] the read of [map] throws, and on every other value [g.map] is not
    a function. *)
Definition call_map (g : val) (callback : val -> outcome val) : outcome val :=
  match g with
  | VUndefined => Thrown (TypeError "Cannot read property 'map' of undefined")
  | VNull => Thrown (TypeError "Cannot read property 'map' of null")
  | VArray items => on_resolved VArray (Array_map callback items)
  | _ => Thrown (TypeError "map is not a function")
  end.

(** The options parsed by commander. *)
Record options := {
  program_key : val;
  program_keyfile : val;
  program_cart : val;
  program_query : val;
  program_type : val;
  program_debug : val
}.

(** How a run of [main] ends when no exception escapes it: [OutsideModel]
    marks a comparison of values that are not arrays of strings, which
    [compareCarts] is not modelled on. *)
Inductive run := Finished | OutsideModel.

Section WithRuntime.
Variable rt : runtime.

(** [JSON.parse(text)] throws a [SyntaxError] on a text that is not JSON. *)
Definition JSON_parse (text : jsstring) : outcome val :=
  match rt_JSON_parse rt text with
  | Some v => Resolved v
  | None => Thrown SyntaxError
  end.

(** [results['@graph'].map((result) => result['@id'])] *)
Definition graph_ids (results : val) : outcome val :=
  obind (Get rt results (lit "@graph")) (fun graph =>
  call_map graph (fun result => Get rt result (lit "@id"))).

(** [results['@graph'][0].elements] *)
Definition graph_first_elements (results : val) : outcome val :=
  obind (Get rt results (lit "@graph")) (fun graph =>
  obind (Get rt graph (lit "0")) (fun first =>
  Get rt first (lit "elements"))).

(** [fetch(`${host}/search/?${query}&limit=all`, {method: 'GET', ...})] *)
Definition search_request (host query : val) (auth : jsstring) : request :=
  {| req_method := GET;
     req_url := ToString rt host ++ lit "/search/?" ++ ToString rt query
                ++ lit "&limit=all";
     req_authorization := auth;
     req_body := None |}.

(** [fetch(`${host}${cartAtId}?frame=edit`, {method: 'GET', ...})] *)
Definition cart_request (host cartAtId : val) (auth : jsstring) : request :=
  {| req_method := GET;
     req_url := ToString rt host ++ ToString rt cartAtId
                ++ lit "?frame=edit";
     req_authorization := auth;
     req_body := None |}.

(** [fetch(`${host}/carts/${cart.identifier}`,
           {method: 'PUT', ..., body: JSON.stringify(cart)})] *)
Definition cart_put_request (host identifier cart : val) (auth : jsstring)
  : request :=
  {| req_method := PUT;
     req_url := ToString rt host ++ lit "/carts/" ++ ToString rt identifier;
     req_authorization := auth;
     req_body := Some (rt_JSON_stringify rt cart) |}.

(** [fetch(`${host}/cart-search/?cart=${cartId}&limit=all`,
           {method: 'GET', ...})] *)
Definition cart_search_request (host cartId : val) (auth : jsstring)
  : request :=
  {| req_method := GET;
     req_url := ToString rt host ++ lit "/cart-search/?cart="
                ++ ToString rt cartId ++ lit "&limit=all";
     req_authorization := auth;
     req_body := None |}.

(** The Search Client: [fetch(...).then(...).then(...).catch(...)]. *)
Definition getSearchIds (host query : val) (auth : jsstring) : M val :=
  catch
    (results <-
       (response <- fetch rt (search_request host query auth) ;;
        if ok response then response_json rt response
        else throw (ErrorNotOk response)) ;;
     lift (graph_ids results))
    (fun e => console_write Stdout "OBJECT LOAD ERROR: %s" [LogError e]).

(** The Cart Reader resolves to the parsed body. *)
Definition getWriteableCartObject (host cartAtId : val) (auth : jsstring)
  : M val :=
  catch
    (response <- fetch rt (cart_request host cartAtId auth) ;;
     if ok response then response_json rt response
     else throw (ErrorOf response))
    (fun err =>
       console_write Stderr "Retrieving writeable cart object" [LogError err]).

(** The Cart Writer.  The arguments of [fetch] are evaluated before the
    promise chain exists: an exception of [cart.identifier] is not caught. *)
Definition writeCart (host cart : val) (auth : jsstring) : M val :=
  identifier <- lift (Get rt cart (lit "identifier")) ;;
  catch
    (results <-
       (response <- fetch rt (cart_put_request host identifier cart auth) ;;
        if ok response then response_json rt response
        else throw (ErrorNotOk response)) ;;
     lift (graph_first_elements results))
    (fun e => console_write Stdout "OBJECT LOAD ERROR: %s" [LogError e]).

(** The Cart Search Client. *)
Definition searchCart (host cartId : val) (auth : jsstring) : M val :=
  catch
    (results <-
       (response <- fetch rt (cart_search_request host cartId auth) ;;
        if ok response then response_json rt response
        else throw (ErrorOf response)) ;;
     lift (graph_ids results))
    (fun err => console_write Stderr "SEARCH CART ERROR %o" [LogError err]).

(** [readFile]: the callback of [fs.readFile] rejects on [err] and
    resolves with [data] otherwise. *)
Definition readFile (path : val) (opts : string) : M jsstring :=
  lift (match rt_readFile rt path opts with
        | inl err => Thrown (SystemError err)
        | inr data => Resolved data
        end).

(** The Credential Loader: [JSON.parse(await readFile(keyfile))]. *)
Definition readKeyfile (keyfile : val) : M val :=
  results <- readFile keyfile "utf8" ;;
  lift (JSON_parse results).

(** An array of strings. *)
Fixpoint identifiers (items : list val) : option (list jsstring) :=
  match items with
  | [] => Some []
  | VString s :: items' => option_map (cons s) (identifiers items')
  | _ :: _ => None
  end.

(** [compareCarts(cart0, cart1)] on the values [main] passes: the read of
    [length] throws on [undefined] and on [null]. *)
Definition compareCarts_values (cart0 cart1 : val)
  : outcome (option differences) :=
  match cart0, cart1 with
  | VUndefined, _ | VNull, _ | _, VUndefined | _, VNull =>
      Thrown (TypeError "Cannot read property 'length'")
  | VArray items0, VArray items1 =>
      match identifiers items0, identifiers items1 with
      | Some c0, Some c1 => Resolved (Some (compareCarts c0 c1))
      | _, _ => Resolved None
      end
  | _, _ => Resolved None
  end.

(** The first three statements of [main]: the selected server and the
    authorization header. *)
Definition credentials (program : options) : M (val * jsstring) :=
  keyFileData <- readKeyfile (program_keyfile program) ;;
  entry <- lift (Get rt keyFileData (ToString rt (program_key program))) ;;
  server <- lift (Get rt entry (lit "server")) ;;
  entry1 <- lift (Get rt keyFileData (ToString rt (program_key program))) ;;
  key <- lift (Get rt entry1 (lit "key")) ;;
  entry2 <- lift (Get rt keyFileData (ToString rt (program_key program))) ;;
  secret <- lift (Get rt entry2 (lit "secret")) ;;
  auth <- lift (keypairToAuth (ToString rt key) (ToString rt secret)) ;;
  ret (server, auth).

(** [main]: the statements of the source in their order.  Nothing catches
    what they throw: an exception rejects the promise of [main]. *)
Definition main (program : options) : M run :=
  keyFileData <- readKeyfile (program_keyfile program) ;;
  entry <- lift (Get rt keyFileData (ToString rt (program_key program))) ;;
  server <- lift (Get rt entry (lit "server")) ;;
  entry1 <- lift (Get rt keyFileData (ToString rt (program_key program))) ;;
  key <- lift (Get rt entry1 (lit "key")) ;;
  entry2 <- lift (Get rt keyFileData (ToString rt (program_key program))) ;;
  secret <- lift (Get rt entry2 (lit "secret")) ;;
  auth <- lift (keypairToAuth (ToString rt key) (ToString rt secret)) ;;
  itemIds <- getSearchIds server (program_query program) auth ;;
  cart <- getWriteableCartObject server (program_cart program) auth ;;
  cart <- lift (Put cart (lit "elements") itemIds) ;;
  updatedCart <- writeCart server cart auth ;;
  searchedCart <- searchCart server (program_cart program) auth ;;
  differences <- lift (compareCarts_values updatedCart searchedCart) ;;
  match differences with
  | None => ret OutsideModel
  | Some DFalse =>
      _ <- console_write Stdout
             "Different contents Cart size: %s -- Search size %s"
             [LogValue (field rt updatedCart (lit "length"));
              LogValue (field rt searchedCart (lit "length"))] ;;
      ret Finished
  | Some (DArray items) =>
      _ <- console_write Stdout "Differences: %o"
             [LogDifferences (DArray items)] ;;
      ret Finished
  end.

(** The statements of [main] that follow the selection of the credentials:
    search, read the cart, replace its elements, write it, search the cart,
    compare and report. *)
Definition orchestrate (program : options) (server : val) (auth : jsstring)
  : M run :=
  itemIds <- getSearchIds server (program_query program) auth ;;
  cart <- getWriteableCartObject server (program_cart program) auth ;;
  cart <- lift (Put cart (lit "elements") itemIds) ;;
  updatedCart <- writeCart server cart auth ;;
  searchedCart <- searchCart server (program_cart program) auth ;;
  differences <- lift (compareCarts_values updatedCart searchedCart) ;;
  match differences with
  | None => ret OutsideModel
  | Some DFalse =>
      _ <- console_write Stdout
             "Different contents Cart size: %s -- Search size %s"
             [LogValue (field rt updatedCart (lit "length"));
              LogValue (field rt searchedCart (lit "length"))] ;;
      ret Finished
  | Some (DArray items) =>
      _ <- console_write Stdout "Differences: %o"
             [LogDifferences (DArray items)] ;;
      ret Finished
  end.
End WithRuntime.

(** A value whose properties can be read: neither [undefined] nor [null]. *)
Definition readable (v : val) : bool :=
  match v with
  | VUndefined | VNull => false
  | _ => true
  end.

(** The world after a request was sent and answered. *)
Definition sent (w : world) (r : request) : world :=
  {| console := console w; requests := requests w ++ [r] |}.

(** The world after a request was sent and the error [e] was written to the
    console. *)
Definition sent_and_logged (w : world) (r : request) (s : stream)
  (format : string) (e : exn) : world :=
  {| console := console w ++ [{| log_stream := s; log_format := format;
                                 log_args := [LogError e] |}];
     requests := requests w ++ [r] |}.

(** A platform for examples: one file, one parser and one answer to every
    request; prototypes hold nothing. *)
Definition example_runtime (file : host_error + jsstring)
  (parse : jsstring -> option val) (answer : host_error + response) : runtime :=
  {| rt_readFile := fun _ _ => file;
     rt_JSON_parse := parse;
     rt_JSON_stringify := fun _ => lit "{}";
     rt_ToString := fun _ => lit "[object Object]";
     rt_fetch := fun _ _ => answer;
     rt_proto := fun _ _ => VUndefined;
     rt_proto_script := fun _ _ _ => eq_refl |}.

Definition example_options : options :=
  {| program_key := VString (lit "localhost");
     program_keyfile := VString (lit "keypairs.json");
     program_cart := VString (lit "/carts/1/");
     program_query := VString (lit "type=Experiment");
     program_type := VString (lit "search");
     program_debug := VBool false |}.

Definition empty_world : world := {| console := []; requests := [] |}.

(** A key file with one environment, [localhost]. *)
Definition example_keyfile : val :=
  VObject [(lit "localhost",
            VObject [(lit "server", VString (lit "http://localhost:6543"));
                     (lit "key", VString (lit "ABCDEFGH"));
                     (lit "secret", VString (lit "s3cr3t"))])].

(** A parser that knows one text, standing for the contents of the key
    file. *)
Definition example_parse (text : jsstring) : option val :=
  if eqb text (lit "<keypairs>") then Some example_keyfile else None.

(** A platform that finds the key file and whose server answers 404. *)
Definition offline_runtime : runtime :=
  example_runtime (inr (lit "<keypairs>")) example_parse
    (inr {| status := 404; body := lit "Not Found" |}).

Definition example_server : val := VString (lit "http://localhost:6543").

(** [keypairToAuth("ABCDEFGH", "s3cr3t")] *)
Definition example_auth : jsstring := lit "Basic QUJDREVGR0g6czNjcjN0".

(** The body [{"@graph":[{"@id":"/a/1"},{"@id":"/a/2"}]}], parsed. *)
Definition example_search_results : val :=
  VObject [(lit "@graph",
            VArray [VObject [(lit "@id", VString (lit "/a/1"))];
                    VObject [(lit "@id", VString (lit "/a/2"))]])].

(** The body [{"@graph":[{"elements":["/x/1","/x/2"]}]}], parsed. *)
Definition example_write_results : val :=
  VObject [(lit "@graph",
            VArray [VObject [(lit "elements",
                              VArray [VString (lit "/x/1");
                                      VString (lit "/x/2")])]])].

(** A cart with [elements: ["/x/1","/x/2"]]. *)
Definition example_cart : val :=
  VObject [(lit "identifier", VString (lit "cart-1"));
           (lit "elements",
            VArray [VString (lit "/x/1"); VString (lit "/x/2")])].

(** What a client leaves behind, whatever the answer: its request, and at
    most one line on the console. *)
Definition one_request (w : world) (req : request) (w' : world) : Prop :=
  requests w' = requests w ++ [req] /\
  (console w' = console w \/ exists entry, console w' = console w ++ [entry]).

(** A computation that neither sends a request nor writes to the console. *)
Definition quiet {A} (m : M A) : Prop :=
  forall w r w', m w = (r, w') -> w' = w.

(** The line [main] writes for a comparison. *)
Definition report (d : differences) (size0 size1 : nat) : log_entry :=
  match d with
  | DFalse =>
      {| log_stream := Stdout;
         log_format := "Different contents Cart size: %s -- Search size %s";
         log_args := [LogValue (VNumber (Z.of_nat size0));
                      LogValue (VNumber (Z.of_nat size1))] |}
  | DArray items =>
      {| log_stream := Stdout;
         log_format := "Differences: %o";
         log_args := [LogDifferences (DArray items)] |}
  end.

(** The world after one more line on the console. *)
Definition logged (w : world) (entry : log_entry) : world :=
  {| console := console w ++ [entry]; requests := requests w |}.

(** An array of identifiers as a value. *)
Definition identifier_array (ids : list jsstring) : val :=
  VArray (map VString ids).

(** A platform for examples whose server answers the n-th request of a run
    with the n-th of [answers], and whose parser knows the texts of
    [table]. *)
Definition scripted_runtime (file : host_error + jsstring)
  (table : list (jsstring * val)) (answers : list (host_error + response))
  : runtime :=
  {| rt_readFile := fun _ _ => file;
     rt_JSON_parse := fun text => assoc text table;
     rt_JSON_stringify := fun _ => lit "{}";
     rt_ToString := fun _ => lit "[object Object]";
     rt_fetch := fun history _ =>
                   nth (List.length history) answers (inl "ECONNRESET");
     rt_proto := fun _ _ => VUndefined;
     rt_proto_script := fun _ _ _ => eq_refl |}.

Definition answer (status : N) (body : jsstring) : host_error + response :=
  inr {| status := status; body := body |}.

(** The texts of an example run: the key file, the search results, the
    cart, the answer to the update and the results of the cart search. *)
Definition example_table (written searched : list jsstring)
  : list (jsstring * val) :=
  [(lit "<keypairs>", example_keyfile);
   (lit "<search>", example_search_results);
   (lit "<cart>", example_cart);
   (lit "<written>",
    VObject [(lit "@graph",
              VArray [VObject [(lit "elements", identifier_array written)]])]);
   (lit "<cart-search>",
    VObject [(lit "@graph",
              VArray (map (fun id => VObject [(lit "@id", VString id)])
                        searched))])].

(** A server that answers every request of [main] with 200. *)
Definition example_server_runtime (written searched : list jsstring)
  : runtime :=
  scripted_runtime (inr (lit "<keypairs>")) (example_table written searched)
    [answer 200 (lit "<search>"); answer 200 (lit "<cart>");
     answer 200 (lit "<written>"); answer 200 (lit "<cart-search>")].

(** A server that refuses the update of the cart with 403 and answers the
    other requests with 200. *)
Definition refusing_runtime : runtime :=
  scripted_runtime (inr (lit "<keypairs>")) (example_table [] [])
    [answer 200 (lit "<search>"); answer 200 (lit "<cart>");
     answer 403 (lit "Forbidden"); answer 200 (lit "<cart-search>")].

(** The body [{"@graph":[{"@id":"/a/1"},null]}], parsed. *)
Definition example_search_results_null : val :=
  VObject [(lit "@graph",
            VArray [VObject [(lit "@id", VString (lit "/a/1"))]; VNull])].

(** The body [{"@graph":[]}], parsed. *)
Definition example_write_results_empty : val :=
  VObject [(lit "@graph", VArray [])].

(** A platform whose server answers every request with 200 and a body that
    parses to [results]. *)
Definition answering_runtime (results : val) : runtime :=
  example_runtime (inl "ENOENT") (fun _ => Some results)
    (answer 200 (lit "<body>")).

(** What an object inherits from [Object.prototype] under the name
    [constructor]: the function [Object].  Other names are not looked at. *)
Definition object_prototype (v : val) (k : jsstring) : val :=
  match v with
  | VObject _ =>
      if eqb k (lit "constructor") then VFunction (lit "Object")
      else VUndefined
  | _ => VUndefined
  end.

Definition object_prototype_script (v : val) (k : jsstring)
  : In k script_keys -> object_prototype v k = VUndefined.
Proof.
  intros Hk. destruct v; try reflexivity.
  simpl in Hk.
  repeat (destruct Hk as [<-|Hk]; [reflexivity|]).
  destruct Hk.
Defined.

(** A platform that finds the key file, whose objects inherit
    [constructor], and whose [fetch] rejects every request. *)
Definition inheriting_runtime : runtime :=
  {| rt_readFile := fun _ _ => inr (lit "<keypairs>");
     rt_JSON_parse := example_parse;
     rt_JSON_stringify := fun _ => lit "{}";
     rt_ToString := fun _ => lit "[object Object]";
     rt_fetch := fun _ _ => inl "Only absolute URLs are supported";
     rt_proto := object_prototype;
     rt_proto_script := object_prototype_script |}.

(** The options of a run started with [--key constructor]. *)
Definition constructor_options : options :=
  {| program_key := VString (lit "constructor");
     program_keyfile := VString (lit "keypairs.json");
     program_cart := VString (lit "/carts/1/");
     program_query := VString (lit "type=Experiment");
     program_type := VString (lit "search");
     program_debug := VBool false |}.

(** A platform whose key file holds the JSON text [null]. *)
Definition null_keyfile_runtime : runtime :=
  example_runtime (inr (lit "null")) (fun _ => Some VNull)
    (inl "ECONNREFUSED").

End Script.

Import Script.

(** The comparison as the specification words it: walk both sorted sequences
    pairwise by index and keep the left component of every pair whose
    components differ. *)
Definition pairwise_diff (a b : list jsstring) : list jsstring :=
  map fst (filter (fun p => negb (eqb (fst p) (snd p))) (combine a b)).

(** The entries [_.sortBy] sorts carry their value as criterion. *)
Definition plain (e : entry) : Prop := criteria e = value e.

(** The symmetric difference of two sequences viewed as sets: the values
    that occur in exactly one of them. *)
Definition sym_diff (a b : list jsstring) (x : jsstring) : Prop :=
  (In x a /\ ~ In x b) \/ (In x b /\ ~ In x a).

(** * Properties *)

(** ** Strings: equality and order *)

Module JsStringFacts.

Lemma eqb_spec a b : reflect (a = b) (eqb a b).
Proof.
  revert b; induction a as [|x a IH]; intros [|y b]; simpl;
    try (constructor; congruence).
  destruct (N.eqb_spec x y) as [->|Hxy]; simpl.
  - destruct (IH b) as [->|Hab]; constructor; congruence.
  - constructor; congruence.
Qed.

Lemma eqb_refl a : eqb a a = true.
Proof. destruct (eqb_spec a a); congruence. Qed.

Lemma ltb_irrefl a : ltb a a = false.
Proof.
  induction a as [|x a IH]; simpl; auto.
  rewrite N.ltb_irrefl; exact IH.
Qed.

Lemma ltb_asym a b : ltb a b = true -> ltb b a = false.
Proof.
  revert b; induction a as [|x a IH]; intros [|y b]; simpl; auto; try discriminate.
  destruct (N.ltb_spec x y), (N.ltb_spec y x); auto; try lia; discriminate.
Qed.

Lemma ltb_trichotomy a b : ltb a b = false -> ltb b a = false -> a = b.
Proof.
  revert b; induction a as [|x a IH]; intros [|y b]; simpl; auto; try discriminate.
  destruct (N.ltb_spec x y), (N.ltb_spec y x); try discriminate; try lia.
  intros Hab Hba. assert (x = y) by lia. subst. f_equal; auto.
Qed.

Lemma ltb_trans a b c : ltb a b = true -> ltb b c = true -> ltb a c = true.
Proof.
  revert b c; induction a as [|x a IH]; intros [|y b] [|z c]; simpl; auto;
    try discriminate.
  destruct (N.ltb_spec x y), (N.ltb_spec y z), (N.ltb_spec x z),
    (N.ltb_spec y x), (N.ltb_spec z y), (N.ltb_spec z x);
    auto; try discriminate; try lia.
  apply IH.
Qed.

Lemma le_refl a : le a a.
Proof. apply ltb_irrefl. Qed.

Lemma le_trans a b c : le a b -> le b c -> le a c.
Proof.
  unfold le; intros Hab Hbc.
  destruct (ltb c a) eqn:Hca; auto.
  destruct (ltb a b) eqn:Hlt.
  - rewrite (ltb_trans _ _ _ Hca Hlt) in Hbc; discriminate.
  - rewrite (ltb_trichotomy _ _ Hlt Hab) in Hca. congruence.
Qed.

End JsStringFacts.

Import JsStringFacts.

(** ** The comparator *)

Example compare_reordered :
  compareCarts [lit "/a"; lit "/b"] [lit "/b"; lit "/a"] = DArray [].
Proof. reflexivity. Qed.

Example compare_sizes :
  compareCarts [lit "/a"] [lit "/a"; lit "/b"] = DFalse.
Proof. reflexivity. Qed.

Example compare_mismatch :
  compareCarts [lit "/a"; lit "/c"] [lit "/a"; lit "/b"] = DArray [lit "/c"].
Proof. reflexivity. Qed.

Module ComparatorFacts.

(** *** [Array.prototype.filter] *)

Lemma filter_from_In {A} (f : A -> nat -> bool) l :
  forall i x, In x (filter_from f i l) -> In x l.
Proof.
  induction l as [|y l IH]; simpl; intros i x Hx; auto.
  destruct (f y i); simpl in Hx.
  - destruct Hx as [->|Hx]; eauto.
  - eauto.
Qed.

Lemma filter_from_pairwise pre :
  forall a b, List.length a = List.length b ->
    filter_from (fun x i => strict_neq_at x (pre ++ b) i) (List.length pre) a
    = pairwise_diff a b.
Proof.
  intros a; revert pre; induction a as [|x a IH]; intros pre [|y b] Hlen;
    simpl in Hlen; try discriminate; auto.
  injection Hlen as Hlen. simpl.
  unfold strict_neq_at at 1.
  rewrite nth_error_app2, Nat.sub_diag by lia. simpl.
  specialize (IH (pre ++ [y]) b Hlen).
  rewrite <- app_assoc, length_app in IH. simpl in IH.
  rewrite Nat.add_1_r in IH.
  unfold pairwise_diff in *. simpl.
  destruct (negb (eqb x y)); simpl; rewrite IH; reflexivity.
Qed.

Lemma filter_from_self pre :
  forall a,
    filter_from (fun x i => strict_neq_at x (pre ++ a) i) (List.length pre) a
    = [].
Proof.
  intros a. rewrite filter_from_pairwise by reflexivity.
  unfold pairwise_diff. induction a as [|x a IH]; simpl; auto.
  rewrite eqb_refl. simpl. exact IH.
Qed.

(** *** [Array.prototype.sort] *)

Section SortFacts.
Variable A : Type.
Variable comparefn : A -> A -> Z.

Lemma sort_insert_perm x l : Permutation (sort_insert comparefn x l) (x :: l).
Proof.
  induction l as [|y l IH]; simpl; auto.
  destruct (comparefn x y <=? 0)%Z; auto.
  rewrite IH. apply perm_swap.
Qed.

Lemma Array_sort_perm l : Permutation (Array_sort comparefn l) l.
Proof.
  induction l as [|x l IH]; simpl; auto.
  rewrite sort_insert_perm. auto.
Qed.

(** The comparator is only required to behave on the elements of the
    array being sorted, described by [dom]. *)
Variable dom : A -> Prop.
Local Abbreviation before := (before comparefn).
Hypothesis before_total :
  forall x y, dom x -> dom y -> before x y \/ before y x.
Hypothesis before_trans :
  forall x y z, dom x -> dom y -> dom z ->
    before x y -> before y z -> before x z.
Hypothesis before_antisym :
  forall x y, dom x -> dom y -> before x y -> before y x -> x = y.

Lemma sort_insert_sorted x l :
  dom x -> Forall dom l ->
  StronglySorted before l -> StronglySorted before (sort_insert comparefn x l).
Proof.
  intros Hx Hl Hs. induction Hs as [|y l Hs IH Hy]; simpl.
  - repeat constructor.
  - inversion Hl as [|? ? Hdy Hdl]; subst.
    destruct (Z.leb_spec (comparefn x y) 0) as [Hle|Hgt].
    + constructor; [constructor; auto|].
      constructor; auto.
      rewrite Forall_forall in *. intros z Hz.
      apply before_trans with y; auto.
    + constructor; auto.
      assert (Hyx : before y x).
      { destruct (before_total Hx Hdy) as [H|H]; auto.
        unfold before in H; lia. }
      rewrite Forall_forall in *. intros z Hz.
      apply (Permutation_in _ (sort_insert_perm x l)) in Hz.
      destruct Hz as [<-|Hz]; auto.
Qed.

Lemma Array_sort_sorted l :
  Forall dom l -> StronglySorted before (Array_sort comparefn l).
Proof.
  induction l as [|x l IH]; simpl; intros Hl.
  - constructor.
  - inversion Hl; subst. apply sort_insert_sorted; auto.
    rewrite Forall_forall in *. intros z Hz.
    apply (Permutation_in _ (Array_sort_perm l)) in Hz. auto.
Qed.

(** Two arrangements of the same elements that both satisfy the
    postcondition of [sort] coincide. *)
Lemma sorted_perm_unique l1 :
  forall l2, Forall dom l1 -> Permutation l1 l2 ->
    StronglySorted before l1 -> StronglySorted before l2 -> l1 = l2.
Proof.
  induction l1 as [|x l1 IH]; intros l2 Hd Hp Hs1 Hs2.
  - apply Permutation_nil in Hp. auto.
  - destruct l2 as [|y l2].
    { apply Permutation_sym, Permutation_nil in Hp. discriminate. }
    inversion Hs1 as [|? ? Hs1' Hx]; subst.
    inversion Hs2 as [|? ? Hs2' Hy]; subst.
    inversion Hd as [|? ? Hdx Hd1]; subst.
    assert (Hd2 : Forall dom (y :: l2)).
    { rewrite Forall_forall in *. intros z Hz.
      apply Hd. apply (Permutation_in _ (Permutation_sym Hp)). auto. }
    inversion Hd2 as [|? ? Hdy Hd2']; subst.
    assert (x = y) as ->.
    { assert (Hxin : In x (y :: l2))
        by (apply (Permutation_in _ Hp); simpl; auto).
      assert (Hyin : In y (x :: l1))
        by (apply (Permutation_in _ (Permutation_sym Hp)); simpl; auto).
      destruct Hxin as [->|Hxin]; auto.
      destruct Hyin as [->|Hyin]; auto.
      rewrite Forall_forall in Hx, Hy.
      apply before_antisym; auto. }
    f_equal. apply IH; auto.
    eapply Permutation_cons_inv; eauto.
Qed.
End SortFacts.

(** *** [_.sortBy] *)

Lemma decorate_value l : forall i, map value (decorate i l) = l.
Proof. induction l as [|v l IH]; simpl; intros i; f_equal; auto. Qed.

Lemma decorate_plain l : forall i, Forall plain (decorate i l).
Proof.
  induction l as [|v l IH]; simpl; intros i; constructor; auto. reflexivity.
Qed.

Lemma before_iff x y :
  before sortBy_compare x y <->
  ltb (criteria x) (criteria y) = true \/
  (criteria x = criteria y /\ index x <= index y).
Proof.
  unfold before, sortBy_compare.
  destruct (eqb_spec (criteria x) (criteria y)) as [Heq|Hne]; simpl.
  - rewrite Heq, ltb_irrefl. split; [intros H; right; split; auto; lia|].
    intros [H|[_ H]]; [discriminate|lia].
  - destruct (ltb (criteria y) (criteria x)) eqn:Hyx.
    + split; [lia|]. intros [H|[H _]]; [|contradiction].
      apply ltb_asym in H. congruence.
    + destruct (ltb (criteria x) (criteria y)) eqn:Hxy.
      * split; [auto|lia].
      * exfalso. apply Hne. apply ltb_trichotomy; auto.
Qed.

Lemma before_total x y :
  before sortBy_compare x y \/ before sortBy_compare y x.
Proof.
  rewrite !before_iff.
  destruct (ltb (criteria x) (criteria y)) eqn:Hxy; auto.
  destruct (ltb (criteria y) (criteria x)) eqn:Hyx; auto.
  pose proof (ltb_trichotomy _ _ Hxy Hyx) as Heq.
  destruct (Nat.le_ge_cases (index x) (index y)); [left|right]; right; auto.
Qed.

Lemma before_trans x y z :
  before sortBy_compare x y -> before sortBy_compare y z ->
  before sortBy_compare x z.
Proof.
  rewrite !before_iff.
  intros [Hxy|[Hxy Hi]] [Hyz|[Hyz Hj]].
  - left. eapply ltb_trans; eauto.
  - left. congruence.
  - left. congruence.
  - right. split; [congruence|lia].
Qed.

Lemma before_antisym x y :
  plain x -> plain y ->
  before sortBy_compare x y -> before sortBy_compare y x -> x = y.
Proof.
  unfold plain. rewrite !before_iff.
  intros Hx Hy [Hxy|[Hxy Hi]] [Hyx|[Hyx Hj]].
  - apply ltb_asym in Hxy. congruence.
  - rewrite Hyx, ltb_irrefl in Hxy. discriminate.
  - rewrite Hxy, ltb_irrefl in Hyx. discriminate.
  - destruct x as [vx ix cx], y as [vy iy cy]; simpl in *.
    assert (ix = iy) by lia. congruence.
Qed.

Lemma before_le x y : before sortBy_compare x y -> le (criteria x) (criteria y).
Proof.
  rewrite before_iff. unfold le. intros [H|[-> _]].
  - apply ltb_asym; auto.
  - apply ltb_irrefl.
Qed.

Lemma sortBy_perm l : Permutation (sortBy l) l.
Proof.
  unfold sortBy.
  rewrite (Permutation_map value (Array_sort_perm sortBy_compare (decorate 0 l))).
  rewrite decorate_value. reflexivity.
Qed.

Lemma sortBy_length l : List.length (sortBy l) = List.length l.
Proof. apply Permutation_length, sortBy_perm. Qed.

Lemma sorted_entries_le es :
  Forall plain es -> StronglySorted (before sortBy_compare) es ->
  StronglySorted le (map value es).
Proof.
  intros Hp Hs. induction Hs as [|e es Hs IH He]; simpl; constructor.
  - inversion Hp; auto.
  - inversion Hp as [|? ? Hpe Hpes]; subst.
    rewrite Forall_forall in *. intros v Hv.
    apply in_map_iff in Hv as [e' [<- He']].
    rewrite <- Hpe, <- (Hpes _ He'). apply before_le; auto.
Qed.

Lemma sortBy_sorted l : StronglySorted le (sortBy l).
Proof.
  unfold sortBy. apply sorted_entries_le.
  - rewrite Forall_forall. intros e He.
    apply (Permutation_in _ (Array_sort_perm sortBy_compare _)) in He.
    pose proof (decorate_plain l 0) as Hd. rewrite Forall_forall in Hd. auto.
  - apply Array_sort_sorted with (dom := fun _ => True).
    + intros; apply before_total.
    + intros; eapply before_trans; eauto.
    + rewrite Forall_forall; auto.
Qed.

(** Whatever algorithm the engine runs, an array that is a rearrangement of
    the decorated entries and meets the postcondition of [sort] is the one
    computed by [Array_sort]: the model of [_.sortBy] does not depend on the
    choice of insertion sort. *)
Lemma Array_sort_unique l sorted :
  Permutation sorted (decorate 0 l) ->
  StronglySorted (before sortBy_compare) sorted ->
  sorted = Array_sort sortBy_compare (decorate 0 l).
Proof.
  intros Hp Hs.
  assert (Hd : Forall plain sorted).
  { rewrite Forall_forall. intros e He.
    apply (Permutation_in _ Hp) in He.
    pose proof (decorate_plain l 0) as Hd. rewrite Forall_forall in Hd. auto. }
  apply sorted_perm_unique with (comparefn := sortBy_compare) (dom := plain); auto.
  - intros; apply before_antisym; auto.
  - rewrite Hp. symmetry. apply Array_sort_perm.
  - apply Array_sort_sorted with (dom := fun _ => True).
    + intros; apply before_total.
    + intros; eapply before_trans; eauto.
    + rewrite Forall_forall; auto.
Qed.

End ComparatorFacts.

Import ComparatorFacts.

(** ** The Set Comparator *)

(** C1.  [compareCarts] returns [false] whenever the two sequences differ in
    length.  Otherwise both sequences are sorted independently by the order
    of strings (each sorted sequence is a rearrangement of its input in
    non-decreasing order) and the result collects every element of the
    first sorted sequence whose same-index counterpart in the second sorted
    sequence differs.  The two worked examples evaluate as stated. *)
Theorem compareCarts_spec (seqA seqB : list jsstring) :
  (List.length seqA <> List.length seqB -> compareCarts seqA seqB = DFalse) /\
  (List.length seqA = List.length seqB ->
     Permutation (sortBy seqA) seqA /\ StronglySorted le (sortBy seqA) /\
     Permutation (sortBy seqB) seqB /\ StronglySorted le (sortBy seqB) /\
     compareCarts seqA seqB
     = DArray (pairwise_diff (sortBy seqA) (sortBy seqB))) /\
  compareCarts [lit "/a"; lit "/c"] [lit "/a"; lit "/b"] = DArray [lit "/c"] /\
  compareCarts [lit "/a"] [lit "/a"; lit "/b"] = DFalse.
Proof.
  split; [|split; [|split; reflexivity]].
  - intros Hne. unfold compareCarts.
    apply Nat.eqb_neq in Hne. rewrite Hne. reflexivity.
  - intros Heq.
    split; [apply sortBy_perm|]. split; [apply sortBy_sorted|].
    split; [apply sortBy_perm|]. split; [apply sortBy_sorted|].
    unfold compareCarts. rewrite Heq, Nat.eqb_refl. f_equal.
    apply (filter_from_pairwise []).
    rewrite !sortBy_length. exact Heq.
Qed.

Lemma compareCarts_spec_witness :
  compareCarts [lit "/b"; lit "/a"] [lit "/c"] = DFalse /\
  compareCarts [lit "/b"; lit "/d"] [lit "/c"; lit "/b"]
  = DArray (pairwise_diff [lit "/b"; lit "/d"] [lit "/b"; lit "/c"]).
Proof.
  split.
  - apply (proj1 (compareCarts_spec [lit "/b"; lit "/a"] [lit "/c"])).
    simpl; lia.
  - apply (proj1 (proj2 (compareCarts_spec [lit "/b"; lit "/d"]
                                            [lit "/c"; lit "/b"]))).
    reflexivity.
Defined.

(** C4.  [compareCarts] is not the symmetric difference of its arguments
    viewed as sets.  There are equal-length inputs with duplicate values on
    which it reports a value outside the symmetric difference, and
    equal-length inputs with duplicate values on which it omits a value of
    the symmetric difference. *)
Theorem compareCarts_not_sym_diff :
  (exists a b items x,
      List.length a = List.length b /\ ~ NoDup a /\
      compareCarts a b = DArray items /\
      In x items /\ ~ sym_diff a b x) /\
  (exists a b items x,
      List.length a = List.length b /\ ~ NoDup a /\
      compareCarts a b = DArray items /\
      sym_diff a b x /\ ~ In x items).
Proof.
  split.
  - exists [lit "/a"; lit "/a"; lit "/b"], [lit "/a"; lit "/b"; lit "/b"],
      [lit "/a"], (lit "/a").
    repeat split.
    + intros Hnd. inversion Hnd as [|? ? Hin _]; subst.
      apply Hin. left. reflexivity.
    + left. reflexivity.
    + unfold sym_diff. cbv. intuition congruence.
  - exists [lit "/a"; lit "/b"; lit "/b"], [lit "/a"; lit "/b"; lit "/c"],
      [lit "/b"], (lit "/c").
    repeat split.
    + intros Hnd. inversion Hnd as [|? ? _ Hnd']; subst.
      inversion Hnd' as [|? ? Hin _]; subst.
      apply Hin. left. reflexivity.
    + unfold sym_diff. cbv. intuition congruence.
    + cbv. intuition congruence.
Qed.

(** C9.  For equal-length inputs every identifier reported by
    [compareCarts] is an element of the first argument, so a value that
    occurs only in the second argument is never reported; swapping the
    arguments can change the report. *)
Theorem compareCarts_reports_first_argument :
  (forall seqA seqB items,
      List.length seqA = List.length seqB ->
      compareCarts seqA seqB = DArray items ->
      (forall x, In x items -> In x seqA) /\
      (forall x, In x seqB -> ~ In x seqA -> ~ In x items)) /\
  (exists seqA seqB,
      List.length seqA = List.length seqB /\
      compareCarts seqA seqB <> compareCarts seqB seqA).
Proof.
  split.
  - intros seqA seqB items Hlen Hcmp.
    assert (Hsub : forall x, In x items -> In x seqA).
    { unfold compareCarts in Hcmp. rewrite Hlen, Nat.eqb_refl in Hcmp.
      injection Hcmp as <-. intros x Hx.
      apply filter_from_In in Hx.
      apply (Permutation_in _ (sortBy_perm seqA)); auto. }
    split; auto.
  - exists [lit "/a"; lit "/c"], [lit "/a"; lit "/b"].
    split; [reflexivity|]. cbv. congruence.
Qed.

Lemma compareCarts_reports_first_argument_witness :
  In (lit "/c") [lit "/a"; lit "/c"].
Proof.
  apply (proj1 (proj1 compareCarts_reports_first_argument
                  [lit "/a"; lit "/c"] [lit "/a"; lit "/b"] [lit "/c"]
                  eq_refl eq_refl)).
  simpl. left. reflexivity.
Defined.

(** C10.  [compareCarts] is reflexive: comparing a sequence with itself
    yields the empty array, whether or not the sequence has duplicates. *)
Theorem compareCarts_refl (a : list jsstring) : compareCarts a a = DArray [].
Proof.
  unfold compareCarts. rewrite Nat.eqb_refl. f_equal.
  apply (filter_from_self []).
Qed.

(** ** The clients *)

Module ScriptFacts.

Section WithRuntime.
Variable rt : runtime.

(** A promise chain that ends in a handler which only logs never rejects. *)
Lemma catch_log_resolves (p : M val) s format w :
  exists v w',
    catch p (fun e => console_write s format [LogError e]) w
    = (Resolved v, w').
Proof.
  unfold catch. destruct (p w) as [[v|e] w']; eauto.
  unfold console_write; eauto.
Qed.

Lemma getSearchIds_resolves host query auth w :
  exists v w', getSearchIds rt host query auth w = (Resolved v, w').
Proof. apply catch_log_resolves. Qed.

Lemma searchCart_resolves host cartId auth w :
  exists v w', searchCart rt host cartId auth w = (Resolved v, w').
Proof. apply catch_log_resolves. Qed.

Lemma getWriteableCartObject_resolves host cartAtId auth w :
  exists v w', getWriteableCartObject rt host cartAtId auth w = (Resolved v, w').
Proof. apply catch_log_resolves. Qed.

(** The three ways a client fails: the request is rejected, the status is
    not 2xx, the body is not JSON. *)
Lemma getSearchIds_rejected host query auth w e :
  rt_fetch rt (requests w) (search_request rt host query auth) = inl e ->
  getSearchIds rt host query auth w
  = (Resolved VUndefined,
     sent_and_logged w (search_request rt host query auth) Stdout
       "OBJECT LOAD ERROR: %s" (FetchError e)).
Proof.
  intros Hf. unfold getSearchIds, catch, bind, fetch. rewrite Hf. reflexivity.
Qed.





(** Reading the answer of a successful request. *)
Lemma getSearchIds_ok host query auth w response results :
  rt_fetch rt (requests w) (search_request rt host query auth) = inr response ->
  ok response = true ->
  rt_JSON_parse rt (body response) = Some results ->
  getSearchIds rt host query auth w
  = match graph_ids rt results with
    | Resolved ids =>
        (Resolved ids, sent w (search_request rt host query auth))
    | Thrown e =>
        (Resolved VUndefined,
         sent_and_logged w (search_request rt host query auth) Stdout
           "OBJECT LOAD ERROR: %s" e)
    end.
Proof.
  intros Hf Hok Hp.
  unfold getSearchIds, catch, bind, fetch, response_json, lift.
  rewrite Hf, Hok, Hp. simpl.
  destruct (graph_ids rt results); reflexivity.
Qed.

Lemma writeCart_ok host cart auth w identifier response results :
  Get rt cart (lit "identifier") = Resolved identifier ->
  rt_fetch rt (requests w) (cart_put_request rt host identifier cart auth)
  = inr response ->
  ok response = true ->
  rt_JSON_parse rt (body response) = Some results ->
  writeCart rt host cart auth w
  = match graph_first_elements rt results with
    | Resolved elements =>
        (Resolved elements,
         sent w (cart_put_request rt host identifier cart auth))
    | Thrown e =>
        (Resolved VUndefined,
         sent_and_logged w (cart_put_request rt host identifier cart auth)
           Stdout "OBJECT LOAD ERROR: %s" e)
    end.
Proof.
  intros Hid Hf Hok Hp.
  unfold writeCart, catch, bind, fetch, response_json, lift.
  rewrite Hid, Hf, Hok, Hp. simpl.
  destruct (graph_first_elements rt results); reflexivity.
Qed.

(** The identifiers of a [@graph] whose elements are all readable. *)
Lemma Array_map_fields k items :
  forallb readable items = true ->
  Array_map (fun item => Get rt item k) items
  = Resolved (map (fun item => field rt item k) items).
Proof.
  induction items as [|x items IH]; simpl; auto.
  intros H. apply andb_prop in H as [Hx Hitems].
  rewrite (IH Hitems).
  destruct x; simpl in *; try discriminate; reflexivity.
Qed.

Lemma graph_ids_array props items :
  assoc (lit "@graph") props = Some (VArray items) ->
  forallb readable items = true ->
  graph_ids rt (VObject props)
  = Resolved (VArray (map (fun item => field rt item (lit "@id")) items)).
Proof.
  intros Hg Hr. unfold graph_ids. simpl. unfold field. simpl.
  rewrite Hg. simpl. rewrite (Array_map_fields _ _ Hr). reflexivity.
Qed.

Lemma graph_first_elements_array props first rest :
  assoc (lit "@graph") props = Some (VArray (first :: rest)) ->
  readable first = true ->
  graph_first_elements rt (VObject props)
  = Resolved (field rt first (lit "elements")).
Proof.
  intros Hg Hr. unfold graph_first_elements. simpl. unfold field at 1 2. simpl.
  rewrite Hg. simpl.
  destruct first; simpl in *; try discriminate; reflexivity.
Qed.
End WithRuntime.

End ScriptFacts.

Import ScriptFacts.



(** C5.  When the search response is 2xx and its body is a JSON object
    with a [@graph] array whose elements have properties to read (none is
    [null]), the Search Client returns the [@id] of each element, in the
    order of the array.  For the body
    [{"@graph":[{"@id":"/a/1"},{"@id":"/a/2"}]}] it returns
    [["/a/1", "/a/2"]]. *)
Theorem getSearchIds_graph_ids (rt : runtime) (host query : val)
  (auth : jsstring) (w : world) (response : response) :
  rt_fetch rt (requests w) (search_request rt host query auth) = inr response ->
  ok response = true ->
  (forall props items,
      rt_JSON_parse rt (body response) = Some (VObject props) ->
      assoc (lit "@graph") props = Some (VArray items) ->
      forallb readable items = true ->
      getSearchIds rt host query auth w
      = (Resolved (VArray (map (fun item => field rt item (lit "@id")) items)),
         sent w (search_request rt host query auth))) /\
  (rt_JSON_parse rt (body response) = Some example_search_results ->
   getSearchIds rt host query auth w
   = (Resolved (VArray [VString (lit "/a/1"); VString (lit "/a/2")]),
      sent w (search_request rt host query auth))).
Proof.
  intros Hf Hok. split.
  - intros props items Hp Hg Hr.
    rewrite (getSearchIds_ok _ _ _ _ _ Hf Hok Hp).
    rewrite (graph_ids_array _ _ Hg Hr). reflexivity.
  - intros Hp. rewrite (getSearchIds_ok _ _ _ _ _ Hf Hok Hp). reflexivity.
Qed.

Lemma getSearchIds_graph_ids_witness :
  getSearchIds
    (example_runtime (inl "ENOENT") (fun _ => Some example_search_results)
       (inr {| status := 200; body := lit "{}" |}))
    (VString (lit "http://localhost:6543")) (VString (lit "type=Experiment"))
    (lit "Basic dXNlcjpwYXNz") empty_world
  = (Resolved (VArray [VString (lit "/a/1"); VString (lit "/a/2")]),
     sent empty_world
       (search_request
          (example_runtime (inl "ENOENT") (fun _ => Some example_search_results)
             (inr {| status := 200; body := lit "{}" |}))
          (VString (lit "http://localhost:6543"))
          (VString (lit "type=Experiment")) (lit "Basic dXNlcjpwYXNz"))).
Proof.
  apply (proj2 (getSearchIds_graph_ids
                  (example_runtime (inl "ENOENT")
                     (fun _ => Some example_search_results)
                     (inr {| status := 200; body := lit "{}" |}))
                  (VString (lit "http://localhost:6543"))
                  (VString (lit "type=Experiment"))
                  (lit "Basic dXNlcjpwYXNz") empty_world
                  eq_refl eq_refl)).
  reflexivity.
Defined.

(** C5, as worded, fails.  The body [{"@graph":[{"@id":"/a/1"},null]}] of a
    2xx response contains a [@graph] array, yet the Search Client returns no
    sequence: the read of [@id] from [null] throws inside [map], the handler
    writes the [TypeError] to the console and the call resolves to
    [undefined]. *)
Lemma getSearchIds_null_element :
  ok {| status := 200; body := lit "<body>" |} = true /\
  getSearchIds (answering_runtime example_search_results_null)
    example_server (VString (lit "type=Experiment")) example_auth empty_world
  = (Resolved VUndefined,
     sent_and_logged empty_world
       (search_request (answering_runtime example_search_results_null)
          example_server (VString (lit "type=Experiment")) example_auth)
       Stdout "OBJECT LOAD ERROR: %s"
       (TypeError "Cannot read property of null")).
Proof. split; reflexivity. Qed.

(** C6.  When the cart-update response is 2xx and its body is a JSON object
    whose [@graph] array has a first entry with properties to read, the Cart
    Writer returns the [elements] of that entry.  Writing a cart with
    elements [["/x/1","/x/2"]] and receiving
    [{"@graph":[{"elements":["/x/1","/x/2"]}]}] yields [["/x/1","/x/2"]]. *)
Theorem writeCart_first_elements (rt : runtime) (host cart identifier : val)
  (auth : jsstring) (w : world) (response : response) :
  Get rt cart (lit "identifier") = Resolved identifier ->
  rt_fetch rt (requests w) (cart_put_request rt host identifier cart auth)
  = inr response ->
  ok response = true ->
  (forall props first rest,
      rt_JSON_parse rt (body response) = Some (VObject props) ->
      assoc (lit "@graph") props = Some (VArray (first :: rest)) ->
      readable first = true ->
      writeCart rt host cart auth w
      = (Resolved (field rt first (lit "elements")),
         sent w (cart_put_request rt host identifier cart auth))) /\
  (cart = example_cart ->
   rt_JSON_parse rt (body response) = Some example_write_results ->
   writeCart rt host cart auth w
   = (Resolved (VArray [VString (lit "/x/1"); VString (lit "/x/2")]),
      sent w (cart_put_request rt host identifier cart auth))).
Proof.
  intros Hid Hf Hok. split.
  - intros props first rest Hp Hg Hr.
    rewrite (writeCart_ok _ _ _ _ _ Hid Hf Hok Hp).
    rewrite (graph_first_elements_array _ _ Hg Hr). reflexivity.
  - intros _ Hp. rewrite (writeCart_ok _ _ _ _ _ Hid Hf Hok Hp). reflexivity.
Qed.

Lemma writeCart_first_elements_witness :
  writeCart
    (example_runtime (inl "ENOENT") (fun _ => Some example_write_results)
       (inr {| status := 200; body := lit "{}" |}))
    (VString (lit "http://localhost:6543")) example_cart
    (lit "Basic dXNlcjpwYXNz") empty_world
  = (Resolved (VArray [VString (lit "/x/1"); VString (lit "/x/2")]),
     sent empty_world
       (cart_put_request
          (example_runtime (inl "ENOENT") (fun _ => Some example_write_results)
             (inr {| status := 200; body := lit "{}" |}))
          (VString (lit "http://localhost:6543")) (VString (lit "cart-1"))
          example_cart (lit "Basic dXNlcjpwYXNz"))).
Proof.
  apply (proj2 (writeCart_first_elements
                  (example_runtime (inl "ENOENT")
                     (fun _ => Some example_write_results)
                     (inr {| status := 200; body := lit "{}" |}))
                  (VString (lit "http://localhost:6543")) example_cart
                  (lit "Basic dXNlcjpwYXNz") empty_world
                  eq_refl eq_refl eq_refl));
    reflexivity.
Defined.

(** C6, as worded, fails.  The 2xx answer [{"@graph":[]}] has no first
    entry: [results['@graph'][0]] is [undefined], the read of [elements]
    throws, the handler writes the [TypeError] to the console and the Cart
    Writer resolves to [undefined]. *)
Lemma writeCart_no_first_entry :
  ok {| status := 200; body := lit "<body>" |} = true /\
  writeCart (answering_runtime example_write_results_empty)
    example_server example_cart example_auth empty_world
  = (Resolved VUndefined,
     sent_and_logged empty_world
       (cart_put_request (answering_runtime example_write_results_empty)
          example_server (VString (lit "cart-1")) example_cart example_auth)
       Stdout "OBJECT LOAD ERROR: %s"
       (TypeError "Cannot read property of undefined")).
Proof. split; reflexivity. Qed.

(** ** The orchestrator *)

Module MainFacts.

Lemma bind_inv {A B} (p : M A) (k : A -> M B) w b w' :
  bind p k w = (Resolved b, w') ->
  exists a w1, p w = (Resolved a, w1) /\ k a w1 = (Resolved b, w').
Proof.
  unfold bind. destruct (p w) as [[a|e] w1]; intros H; [eauto|discriminate].
Qed.

Lemma bind_step {A B} (p : M A) (k : A -> M B) w a w1 :
  p w = (Resolved a, w1) -> bind p k w = k a w1.
Proof. unfold bind. intros ->. reflexivity. Qed.

Lemma bind_thrown {A B} (p : M A) (k : A -> M B) w e w1 :
  p w = (Thrown e, w1) -> bind p k w = (Thrown e, w1).
Proof. unfold bind. intros ->. reflexivity. Qed.

Lemma bind_lift {A B} (o : outcome A) (k : A -> M B) w a :
  o = Resolved a -> bind (lift o) k w = k a w.
Proof. intros ->. reflexivity. Qed.

Lemma lift_inv {A} (o : outcome A) w r w' : lift o w = (r, w') -> r = o /\ w' = w.
Proof. unfold lift. intros H. injection H as <- <-. auto. Qed.

Section WithRuntime.
Variable rt : runtime.

Lemma readKeyfile_world keyfile w r w' :
  readKeyfile rt keyfile w = (r, w') -> w' = w.
Proof.
  unfold readKeyfile, readFile, bind, lift.
  destruct (rt_readFile rt keyfile "utf8"); intros H; injection H; auto.
Qed.

(** Selecting the credentials reads a file and computes; it neither sends
    a request nor writes to the console. *)
Lemma credentials_steps program w server auth w1 :
  credentials rt program w = (Resolved (server, auth), w1) ->
  exists keyFileData entry key secret,
    let name := ToString rt (program_key program) in
    readKeyfile rt (program_keyfile program) w = (Resolved keyFileData, w) /\
    Get rt keyFileData name = Resolved entry /\
    Get rt entry (lit "server") = Resolved server /\
    Get rt entry (lit "key") = Resolved key /\
    Get rt entry (lit "secret") = Resolved secret /\
    keypairToAuth (ToString rt key) (ToString rt secret) = Resolved auth /\
    w1 = w.
Proof.
  unfold credentials. intros H.
  apply bind_inv in H as (keyFileData & wa & Hk & H).
  pose proof (readKeyfile_world _ _ Hk) as ->.
  apply bind_inv in H as (entry & wb & He & H).
  apply lift_inv in He as [He ->].
  apply bind_inv in H as (server' & wb & Hs & H).
  apply lift_inv in Hs as [Hs ->].
  apply bind_inv in H as (entry1 & wb & He1 & H).
  apply lift_inv in He1 as [He1 ->].
  apply bind_inv in H as (key & wb & Hkey & H).
  apply lift_inv in Hkey as [Hkey ->].
  apply bind_inv in H as (entry2 & wb & He2 & H).
  apply lift_inv in He2 as [He2 ->].
  apply bind_inv in H as (secret & wb & Hsecret & H).
  apply lift_inv in Hsecret as [Hsecret ->].
  apply bind_inv in H as (auth' & wb & Ha & H).
  apply lift_inv in Ha as [Ha ->].
  unfold ret in H. injection H as -> -> ->.
  assert (entry1 = entry) as -> by congruence.
  assert (entry2 = entry) as -> by congruence.
  exists keyFileData, entry, key, secret. simpl. auto 10.
Qed.

Lemma getSearchIds_requests host query auth w r w' :
  getSearchIds rt host query auth w = (r, w') ->
  requests w' = requests w ++ [search_request rt host query auth].
Proof.
  unfold getSearchIds, catch, bind, fetch, response_json, lift, throw, ret.
  destruct (rt_fetch rt _ _) as [e|response]; simpl.
  - intros H; injection H as <- <-. reflexivity.
  - destruct (ok response); simpl.
    + destruct (rt_JSON_parse rt _); simpl.
      * destruct (graph_ids rt _); simpl;
          intros H; injection H as <- <-; reflexivity.
      * intros H; injection H as <- <-. reflexivity.
    + intros H; injection H as <- <-. reflexivity.
Qed.

Lemma getWriteableCartObject_requests host cartAtId auth w r w' :
  getWriteableCartObject rt host cartAtId auth w = (r, w') ->
  requests w' = requests w ++ [cart_request rt host cartAtId auth].
Proof.
  unfold getWriteableCartObject, catch, bind, fetch, response_json, throw, ret.
  destruct (rt_fetch rt _ _) as [e|response]; simpl.
  - intros H; injection H as <- <-. reflexivity.
  - destruct (ok response); simpl.
    + destruct (rt_JSON_parse rt _); simpl;
        intros H; injection H as <- <-; reflexivity.
    + intros H; injection H as <- <-. reflexivity.
Qed.

(** [main] up to the selection of the credentials. *)
Lemma main_after_credentials program w server auth w1 :
  credentials rt program w = (Resolved (server, auth), w1) ->
  main rt program w
  = (itemIds <- getSearchIds rt server (program_query program) auth ;;
     cart <- getWriteableCartObject rt server (program_cart program) auth ;;
     cart <- lift (Put cart (lit "elements") itemIds) ;;
     updatedCart <- writeCart rt server cart auth ;;
     searchedCart <- searchCart rt server (program_cart program) auth ;;
     differences <- lift (compareCarts_values updatedCart searchedCart) ;;
     match differences with
     | None => ret OutsideModel
     | Some DFalse =>
         _ <- console_write Stdout
                "Different contents Cart size: %s -- Search size %s"
                [LogValue (field rt updatedCart (lit "length"));
                 LogValue (field rt searchedCart (lit "length"))] ;;
         ret Finished
     | Some (DArray items) =>
         _ <- console_write Stdout "Differences: %o"
                [LogDifferences (DArray items)] ;;
         ret Finished
     end) w1.
Proof.
  intros H.
  apply credentials_steps in H
    as (keyFileData & entry & key & secret & Hk & He & Hs & Hkey & Hsecret
        & Ha & ->).
  simpl in He. unfold main.
  rewrite (@bind_step _ _ _ _ _ _ _ Hk). cbv beta.
  rewrite (@bind_lift _ _ _ _ _ _ He). cbv beta.
  rewrite (@bind_lift _ _ _ _ _ _ Hs). cbv beta.
  rewrite (@bind_lift _ _ _ _ _ _ He). cbv beta.
  rewrite (@bind_lift _ _ _ _ _ _ Hkey). cbv beta.
  rewrite (@bind_lift _ _ _ _ _ _ He). cbv beta.
  rewrite (@bind_lift _ _ _ _ _ _ Hsecret). cbv beta.
  rewrite (@bind_lift _ _ _ _ _ _ Ha). cbv beta.
  reflexivity.
Qed.

(** A failure of [readKeyfile] is the failure of [main]. *)
Lemma main_keyfile_thrown program w e w1 :
  readKeyfile rt (program_keyfile program) w = (Thrown e, w1) ->
  main rt program w = (Thrown e, w1).
Proof. intros H. unfold main. apply bind_thrown. exact H. Qed.
End WithRuntime.

End MainFacts.

Import MainFacts.

(** C7.  In every run in which the Cart Reader resolves to [undefined], the
    assignment to [cart.elements] that follows is not guarded: [main] ends
    with a [TypeError] that nothing catches.  Nothing happens after the
    reader returned: no cart is written and nothing more is logged. *)
Theorem main_aborts_without_cart (rt : runtime) (program : options)
  (w0 w1 w2 w3 : world) (server itemIds : val) (auth : jsstring) :
  credentials rt program w0 = (Resolved (server, auth), w1) ->
  getSearchIds rt server (program_query program) auth w1
  = (Resolved itemIds, w2) ->
  getWriteableCartObject rt server (program_cart program) auth w2
  = (Resolved VUndefined, w3) ->
  main rt program w0
  = (Thrown (TypeError "Cannot set property of undefined"), w3) /\
  requests w3
  = requests w0 ++ [search_request rt server (program_query program) auth;
                    cart_request rt server (program_cart program) auth].
Proof.
  intros Hc Hs Hr. split.
  - rewrite (main_after_credentials _ _ _ Hc).
    rewrite (@bind_step _ _ _ _ _ _ _ Hs), (@bind_step _ _ _ _ _ _ _ Hr).
    reflexivity.
  - apply credentials_steps in Hc as (_ & _ & _ & _ & _ & _ & _ & _ & _ & _ & ->).
    rewrite (getWriteableCartObject_requests _ _ _ _ _ Hr).
    rewrite (getSearchIds_requests _ _ _ _ _ Hs).
    rewrite <- app_assoc. reflexivity.
Qed.

Lemma main_aborts_without_cart_witness :
  main offline_runtime example_options empty_world
  = (Thrown (TypeError "Cannot set property of undefined"),
     snd (getWriteableCartObject offline_runtime example_server
            (program_cart example_options) example_auth
            (snd (getSearchIds offline_runtime example_server
                    (program_query example_options) example_auth
                    empty_world)))).
Proof.
  apply (proj1
           (@main_aborts_without_cart offline_runtime example_options
              empty_world empty_world
              (snd (getSearchIds offline_runtime example_server
                      (program_query example_options) example_auth
                      empty_world))
              (snd (getWriteableCartObject offline_runtime example_server
                      (program_cart example_options) example_auth
                      (snd (getSearchIds offline_runtime example_server
                              (program_query example_options) example_auth
                              empty_world))))
              example_server VUndefined example_auth
              eq_refl eq_refl eq_refl)).
Defined.

(** C8.  When the contents of the key file are not valid JSON, [readKeyfile]
    fails with the parse error and so does [main]: the error reaches the
    caller of [main] and nothing is sent or logged.  When the key file is a
    JSON object, [readKeyfile] succeeds whatever environment name is
    selected, and selecting a name that the object does not hold yields
    [undefined] without failing; the run fails when [main] reads [server]
    from that missing entry. *)
Theorem keyfile_failures (rt : runtime) (program : options) (w : world)
  (contents : jsstring) :
  rt_readFile rt (program_keyfile program) "utf8" = inr contents ->
  (rt_JSON_parse rt contents = None ->
   readKeyfile rt (program_keyfile program) w = (Thrown SyntaxError, w) /\
   main rt program w = (Thrown SyntaxError, w)) /\
  (forall props,
      rt_JSON_parse rt contents = Some (VObject props) ->
      readKeyfile rt (program_keyfile program) w = (Resolved (VObject props), w) /\
      (assoc (ToString rt (program_key program)) props = None ->
       rt_proto rt (VObject props) (ToString rt (program_key program))
       = VUndefined ->
       Get rt (VObject props) (ToString rt (program_key program))
       = Resolved VUndefined /\
       main rt program w
       = (Thrown (TypeError "Cannot read property of undefined"), w))).
Proof.
  intros Hfile. split.
  - intros Hparse.
    assert (Hk : readKeyfile rt (program_keyfile program) w
                 = (Thrown SyntaxError, w)).
    { unfold readKeyfile, readFile, bind, lift, JSON_parse.
      rewrite Hfile, Hparse. reflexivity. }
    split; [exact Hk|]. apply main_keyfile_thrown. exact Hk.
  - intros props Hparse.
    assert (Hk : readKeyfile rt (program_keyfile program) w
                 = (Resolved (VObject props), w)).
    { unfold readKeyfile, readFile, bind, lift, JSON_parse.
      rewrite Hfile, Hparse. reflexivity. }
    split; [exact Hk|]. intros Hmissing Hproto.
    assert (Hget : Get rt (VObject props) (ToString rt (program_key program))
                   = Resolved VUndefined).
    { simpl. unfold field. simpl. rewrite Hmissing, Hproto. reflexivity. }
    split; [exact Hget|].
    unfold main. rewrite (@bind_step _ _ _ _ _ _ _ Hk). cbv beta.
    unfold bind at 1, lift at 1. rewrite Hget. reflexivity.
Qed.

Lemma keyfile_failures_witness :
  main (example_runtime (inr (lit "{oops")) example_parse (inl "ECONNREFUSED"))
    example_options empty_world
  = (Thrown SyntaxError, empty_world) /\
  main (example_runtime (inr (lit "<keypairs>")) example_parse
          (inl "ECONNREFUSED"))
    {| program_key := VString (lit "production");
       program_keyfile := VString (lit "keypairs.json");
       program_cart := VString (lit "/carts/1/");
       program_query := VString (lit "type=Experiment");
       program_type := VString (lit "search");
       program_debug := VBool false |}
    empty_world
  = (Thrown (TypeError "Cannot read property of undefined"), empty_world).
Proof.
  split.
  - apply (proj1 (keyfile_failures
                    (example_runtime (inr (lit "{oops")) example_parse
                       (inl "ECONNREFUSED"))
                    example_options empty_world eq_refl)).
    reflexivity.
  - apply (proj2 (keyfile_failures
                    (example_runtime (inr (lit "<keypairs>")) example_parse
                       (inl "ECONNREFUSED"))
                    {| program_key := VString (lit "production");
                       program_keyfile := VString (lit "keypairs.json");
                       program_cart := VString (lit "/carts/1/");
                       program_query := VString (lit "type=Experiment");
                       program_type := VString (lit "search");
                       program_debug := VBool false |}
                    empty_world eq_refl)
             [(lit "localhost",
               VObject [(lit "server", VString (lit "http://localhost:6543"));
                        (lit "key", VString (lit "ABCDEFGH"));
                        (lit "secret", VString (lit "s3cr3t"))])]);
      reflexivity.
Defined.

(** C8, as worded, fails in its second half.  The name [constructor] is not
    in the key file, but the object read from the file inherits it: the
    selection yields the function [Object], the reads of [server], [key] and
    [secret] from it yield [undefined] without failing, the credentials are
    built, both reads are sent, and the run fails later, at the assignment
    to the cart.  And when the key file holds [null], the selection itself
    throws, before any entry is there to be read from. *)
Lemma keyfile_selection_fails_elsewhere :
  own_property example_keyfile (lit "constructor") = None /\
  Get inheriting_runtime example_keyfile
    (ToString inheriting_runtime (program_key constructor_options))
  = Resolved (VFunction (lit "Object")) /\
  credentials inheriting_runtime constructor_options empty_world
  = (Resolved (VUndefined, lit "Basic dW5kZWZpbmVkOnVuZGVmaW5lZA=="),
     empty_world) /\
  fst (main inheriting_runtime constructor_options empty_world)
  = Thrown (TypeError "Cannot set property of undefined") /\
  map req_method
    (requests (snd (main inheriting_runtime constructor_options empty_world)))
  = [GET; GET] /\
  readKeyfile null_keyfile_runtime (program_keyfile example_options)
    empty_world
  = (Resolved VNull, empty_world) /\
  Get null_keyfile_runtime VNull
    (ToString null_keyfile_runtime (program_key example_options))
  = Thrown (TypeError "Cannot read property of null") /\
  main null_keyfile_runtime example_options empty_world
  = (Thrown (TypeError "Cannot read property of null"), empty_world).
Proof. repeat split; vm_compute; reflexivity. Qed.

(** ** The Auth Encoder *)

Module AuthFacts.

Local Open Scope N_scope.

(** *** Checks by enumeration *)

Lemma below_In n x : x < N.of_nat n -> In x (below n).
Proof.
  intros H. unfold below. apply in_map_iff.
  exists (N.to_nat x). split; [apply N2Nat.id|].
  apply in_seq. lia.
Qed.

Lemma forallb_below n f :
  forallb f (below n) = true -> forall x, x < N.of_nat n -> f x = true.
Proof.
  intros H x Hx. rewrite forallb_forall in H. apply H, below_In, Hx.
Qed.

Lemma forallb2_below n m f :
  forallb (fun x => forallb (f x) (below m)) (below n) = true ->
  forall x y, x < N.of_nat n -> y < N.of_nat m -> f x y = true.
Proof.
  intros H x y Hx Hy.
  apply (forallb_below m (f x)); auto.
  apply (forallb_below n (fun x => forallb (f x) (below m))); auto.
Qed.

(** *** Percent-encoding and [unescape] *)

Lemma ascii_not_surrogate c : c < 128 -> is_lead c || is_trail c = false.
Proof.
  intros H. unfold is_lead, is_trail.
  destruct (N.leb_spec 0xD800 c), (N.leb_spec 0xDC00 c); simpl; auto; lia.
Qed.

Lemma unreserved_not_percent c : unreserved c = true -> (c =? 37) = false.
Proof.
  intros H.
  destruct (N.eqb_spec c 37) as [->|]; [vm_compute in H; discriminate|].
  reflexivity.
Qed.

Lemma percent_reads_back c :
  c < 256 ->
  hex_number 0 [hex_digit (N.shiftr c 4); hex_digit (N.land c 15)] = Some c /\
  (hex_digit (N.shiftr c 4) =? 117) = false.
Proof.
  intros H.
  assert (Hb : (match hex_number 0 [hex_digit (N.shiftr c 4);
                                    hex_digit (N.land c 15)] with
                | Some v => v =? c
                | None => false
                end && negb (hex_digit (N.shiftr c 4) =? 117)) = true).
  { revert c H.
    apply (forallb_below 256
             (fun c => match hex_number 0 [hex_digit (N.shiftr c 4);
                                           hex_digit (N.land c 15)] with
                       | Some v => v =? c
                       | None => false
                       end && negb (hex_digit (N.shiftr c 4) =? 117))).
    vm_compute. reflexivity. }
  apply andb_prop in Hb as [Hv Hu].
  destruct (hex_number 0 _) as [v|]; [|discriminate].
  apply N.eqb_eq in Hv. subst v.
  split; auto. apply negb_true_iff in Hu. exact Hu.
Qed.

Lemma escape_u_other h rest : (h =? 117) = false -> escape_u (h :: rest) = None.
Proof.
  intros H. unfold escape_u.
  destruct rest as [|d1 [|d2 [|d3 [|d4 rest]]]]; auto.
  rewrite H. reflexivity.
Qed.

Lemma unescape_percent c rest :
  c < 256 -> unescape_from 0 (percent c ++ rest) = c :: unescape_from 0 rest.
Proof.
  intros H. destruct (@percent_reads_back c H) as [Hx Hu].
  unfold percent. cbn [app unescape_from].
  rewrite N.eqb_refl, (@escape_u_other _ _ Hu).
  cbn [escape_x]. rewrite Hx. reflexivity.
Qed.

(** On an ASCII string [encodeURIComponent] succeeds and [unescape] undoes
    it. *)
Lemma unescape_encode_ascii s :
  ascii_only s ->
  exists escaped,
    encodeURIComponent s = Resolved escaped /\ unescape escaped = s.
Proof.
  unfold encodeURIComponent, unescape.
  induction 1 as [|c s Hc Hs (escaped & He & Hu)]; simpl.
  - exists []. auto.
  - destruct (unreserved c) eqn:Hun.
    + rewrite He. simpl. exists (c :: escaped). split; auto.
      simpl. rewrite (@unreserved_not_percent c Hun), Hu. reflexivity.
    + unfold CodePointAt. rewrite (@ascii_not_surrogate c Hc). simpl.
      unfold utf8_octets. destruct (N.ltb_spec c 128); [|lia].
      rewrite He. simpl.
      exists (percent c ++ escaped). split; [reflexivity|].
      rewrite unescape_percent by lia. rewrite Hu. reflexivity.
Qed.

(** *** UTF-8 *)

Lemma Buffer_from_ascii s : ascii_only s -> Buffer_from s = s.
Proof.
  unfold Buffer_from. induction 1 as [|c s Hc Hs IH]; simpl; auto.
  unfold CodePointAt. rewrite (@ascii_not_surrogate c Hc). simpl.
  unfold utf8_octets. destruct (N.ltb_spec c 128); [|lia].
  simpl. rewrite IH. reflexivity.
Qed.

Lemma utf8_decode_ascii s : ascii_only s -> utf8_decode s = Some s.
Proof.
  induction 1 as [|c s Hc Hs IH]; simpl; auto.
  destruct (N.ltb_spec c 128); [|lia]. rewrite IH. reflexivity.
Qed.

(** *** Splitting at the colon *)

Lemma split_colon_app key secret :
  ~ In 58 key -> split_colon (key ++ 58 :: secret) = Some (key, secret).
Proof.
  induction key as [|c key IH]; simpl; intros Hno.
  - reflexivity.
  - destruct (N.eqb_spec c 58) as [->|Hc]; [exfalso; auto|].
    rewrite IH by auto. reflexivity.
Qed.

(** *** base64 *)

(** Settle a goal about a number known to lie in [below n] by looking at
    every case. *)
Ltac enumerate H :=
  vm_compute in H;
  repeat (destruct H as [<-|H];
          [try (vm_compute; repeat split; reflexivity)|]);
  try contradiction.

Lemma sextet_char i :
  i < 64 ->
  base64_value (base64_char i) = Some i /\ (base64_char i =? 61) = false.
Proof.
  intros H. apply (below_In 64) in H. enumerate H.
Qed.

(** How a byte splits into the parts the encoder takes from it. *)
Lemma byte_parts a :
  a < 256 ->
  (N.shiftr a 2 < 64 /\ N.land a 3 < 4 /\
   N.lor (N.shiftl (N.shiftr a 2) 2) (N.land a 3) = a) /\
  (N.shiftr a 4 < 16 /\ N.land a 15 < 16 /\
   N.lor (N.shiftl (N.shiftr a 4) 4) (N.land a 15) = a) /\
  (N.shiftr a 6 < 4 /\ N.land a 63 < 64 /\
   N.lor (N.shiftl (N.shiftr a 6) 6) (N.land a 63) = a).
Proof.
  intros H. apply (below_In 256) in H. enumerate H.
Qed.

(** The second sextet, made of two bits and four bits. *)
Lemma sextet_2_4 x y :
  x < 4 -> y < 16 ->
  N.lor (N.shiftl x 4) y < 64 /\
  N.shiftr (N.lor (N.shiftl x 4) y) 4 = x /\
  N.land (N.lor (N.shiftl x 4) y) 15 = y /\
  N.shiftl x 4 < 64 /\ N.shiftr (N.shiftl x 4) 4 = x.
Proof.
  intros Hx Hy. apply (below_In 4) in Hx. apply (below_In 16) in Hy.
  enumerate Hx; enumerate Hy.
Qed.

(** The third sextet, made of four bits and two bits. *)
Lemma sextet_4_2 u z :
  u < 16 -> z < 4 ->
  N.lor (N.shiftl u 2) z < 64 /\
  N.shiftr (N.lor (N.shiftl u 2) z) 2 = u /\
  N.land (N.lor (N.shiftl u 2) z) 3 = z /\
  N.shiftl u 2 < 64 /\ N.shiftr (N.shiftl u 2) 2 = u /\
  N.land (N.shiftl u 2) 3 = 0.
Proof.
  intros Hu Hz. apply (below_In 16) in Hu. apply (below_In 4) in Hz.
  enumerate Hu; enumerate Hz.
Qed.

Lemma decode_one a :
  a < 256 -> base64_decode (toString_base64 [a]) = Some [a].
Proof.
  intros Ha.
  destruct (byte_parts Ha) as ((Ha2 & Ha3 & Ha23) & _ & _).
  destruct (@sextet_2_4 (N.land a 3) 0 Ha3 eq_refl) as (_ & _ & _ & Hs1 & Hx).
  cbn [toString_base64 base64_decode]. unfold quantum.
  rewrite (proj1 (sextet_char Ha2)), (proj1 (sextet_char Hs1)).
  cbn [N.eqb Pos.eqb]. rewrite Hx, Ha23. reflexivity.
Qed.

Lemma decode_two a b :
  a < 256 -> b < 256 -> base64_decode (toString_base64 [a; b]) = Some [a; b].
Proof.
  intros Ha Hb.
  destruct (byte_parts Ha) as ((Ha2 & Ha3 & Ha23) & _ & _).
  destruct (byte_parts Hb) as (_ & (Hb4 & Hb15 & Hb415) & _).
  destruct (sextet_2_4 Ha3 Hb4) as (Hs1 & Hx & Hy & _ & _).
  destruct (@sextet_4_2 (N.land b 15) 0 Hb15 eq_refl) as (_ & _ & _ & Hs2 & Hu & _).
  cbn [toString_base64 base64_decode]. unfold quantum.
  rewrite (proj1 (sextet_char Ha2)), (proj1 (sextet_char Hs1)),
    (proj1 (sextet_char Hs2)), (proj2 (sextet_char Hs2)).
  cbn [N.eqb Pos.eqb]. rewrite Hx, Hy, Hu, Ha23, Hb415. reflexivity.
Qed.

Lemma decode_three a b c rest :
  a < 256 -> b < 256 -> c < 256 ->
  base64_decode (toString_base64 (a :: b :: c :: rest))
  = option_map (app [a; b; c]) (base64_decode (toString_base64 rest)).
Proof.
  intros Ha Hb Hc.
  destruct (byte_parts Ha) as ((Ha2 & Ha3 & Ha23) & _ & _).
  destruct (byte_parts Hb) as (_ & (Hb4 & Hb15 & Hb415) & _).
  destruct (byte_parts Hc) as (_ & _ & (Hc6 & Hc63 & Hc663)).
  destruct (sextet_2_4 Ha3 Hb4) as (Hs1 & Hx & Hy & _ & _).
  destruct (sextet_4_2 Hb15 Hc6) as (Hs2 & Hu & Hz & _ & _).
  cbn [toString_base64 base64_decode app]. unfold quantum.
  rewrite (proj1 (sextet_char Ha2)), (proj1 (sextet_char Hs1)),
    (proj1 (sextet_char Hs2)), (proj1 (sextet_char Hc63)),
    (proj2 (sextet_char Hc63)).
  rewrite Hx, Hy, Hu, Hz, Ha23, Hb415, Hc663. reflexivity.
Qed.

(** Decoding undoes encoding, for every sequence of octets. *)
Lemma base64_round_trip buf :
  Forall (fun b => b < 256) buf ->
  base64_decode (toString_base64 buf) = Some buf.
Proof.
  assert (H : forall n buf, (List.length buf <= n)%nat ->
                            Forall (fun b => b < 256) buf ->
                            base64_decode (toString_base64 buf) = Some buf).
  { induction n as [|n IH]; intros [|a [|b [|c rest]]] Hlen Hbuf;
      simpl in Hlen; try lia; try reflexivity.
    - inversion Hbuf; subst. apply decode_one; auto.
    - inversion Hbuf as [|? ? Ha Hbuf1]; subst.
      inversion Hbuf1; subst. apply decode_two; auto.
    - inversion Hbuf as [|? ? Ha Hbuf1]; subst.
      inversion Hbuf1 as [|? ? Hb Hbuf2]; subst.
      inversion Hbuf2 as [|? ? Hc Hrest]; subst.
      rewrite decode_three by auto.
      rewrite IH by (auto; lia). reflexivity. }
  intros Hbuf. apply (H (List.length buf)); auto.
Qed.

Lemma strip_prefix_app prefix s : strip_prefix prefix (prefix ++ s) = Some s.
Proof.
  induction prefix as [|p prefix IH]; simpl; auto.
  rewrite N.eqb_refl. exact IH.
Qed.

Lemma ascii_octets s : ascii_only s -> Forall (fun b => b < 256) s.
Proof.
  apply Forall_impl. intros c Hc. lia.
Qed.

(** What the encoder produces for two credentials with a character
    outside ASCII, and how the header reads back. *)
Example keypairToAuth_e_acute :
  keypairToAuth [233] (lit "s") = Resolved (lit "Basic w4PCqTpz") /\
  decode_auth (lit "Basic w4PCqTpz") = Some ([195; 169], lit "s").
Proof. split; vm_compute; reflexivity. Qed.

Example keypairToAuth_colon :
  keypairToAuth (lit "a:b") (lit "c") = Resolved (lit "Basic YTpiOmM=") /\
  decode_auth (lit "Basic YTpiOmM=") = Some (lit "a", lit "b:c").
Proof. split; vm_compute; reflexivity. Qed.

Example keypairToAuth_lone_surrogate :
  keypairToAuth [0xD800] (lit "s") = Thrown (URIError "URI malformed").
Proof. vm_compute. reflexivity. Qed.

End AuthFacts.

Import AuthFacts.

(** C2.  The round trip fails on credentials with a character outside
    ASCII.  [unescape(encodeURIComponent(...))] already yields the UTF-8
    octets of [key:secret], one code unit for each; [Buffer.from], called
    without an encoding, encodes that string in UTF-8 once more.  For the key
    U+00E9 (e with an acute accent) and the secret "s" the header is
    [Basic w4PCqTpz]: read back, its payload gives the key U+00C3 U+00A9
    and the secret "s", so the pair is not recovered.  The base64 of the UTF-8 octets of the pair, [C3 A9]
    for the key, is [w6k6cw==], and that header does read back as the
    pair. *)
Theorem keypairToAuth_encodes_twice :
  keypairToAuth [233%N] (lit "s") = Resolved (lit "Basic w4PCqTpz") /\
  decode_auth (lit "Basic w4PCqTpz") = Some ([195%N; 169%N], lit "s") /\
  ~ round_trip [233%N] (lit "s") /\
  toString_base64 (Buffer_from ([233%N] ++ lit ":" ++ lit "s"))
  = lit "w6k6cw==" /\
  decode_auth (lit "Basic w6k6cw==") = Some ([233%N], lit "s").
Proof.
  split; [vm_compute; reflexivity|].
  split; [vm_compute; reflexivity|].
  split; [|split; vm_compute; reflexivity].
  intros (header & Hh & Hd).
  vm_compute in Hh. injection Hh as <-. vm_compute in Hd. discriminate.
Qed.

(** * Further properties *)

(** ** The Set Comparator, continued *)

Module ComparatorMore.

Lemma le_antisym a b : le a b -> le b a -> a = b.
Proof. unfold le. intros Hab Hba. apply ltb_trichotomy; auto. Qed.

Lemma eqb_sym a b : eqb a b = eqb b a.
Proof.
  destruct (eqb_spec a b) as [->|Hne].
  - symmetry. apply eqb_refl.
  - destruct (eqb_spec b a) as [->|_]; [contradiction|reflexivity].
Qed.

(** Two sorted arrangements of the same strings are the same sequence. *)
Lemma le_sorted_unique (l1 : list jsstring) :
  forall l2, Permutation l1 l2 ->
    StronglySorted le l1 -> StronglySorted le l2 -> l1 = l2.
Proof.
  induction l1 as [|x l1 IH]; intros l2 Hp Hs1 Hs2.
  - apply Permutation_nil in Hp. auto.
  - destruct l2 as [|y l2].
    { apply Permutation_sym, Permutation_nil in Hp. discriminate. }
    inversion Hs1 as [|? ? Hs1' Hx]; subst.
    inversion Hs2 as [|? ? Hs2' Hy]; subst.
    assert (x = y) as ->.
    { assert (Hxin : In x (y :: l2))
        by (apply (Permutation_in _ Hp); simpl; auto).
      assert (Hyin : In y (x :: l1))
        by (apply (Permutation_in _ (Permutation_sym Hp)); simpl; auto).
      destruct Hxin as [->|Hxin]; auto.
      destruct Hyin as [->|Hyin]; auto.
      rewrite Forall_forall in Hx, Hy.
      apply le_antisym; auto. }
    f_equal. apply IH; auto.
    eapply Permutation_cons_inv; eauto.
Qed.

Lemma sortBy_perm_invariant a a' : Permutation a a' -> sortBy a = sortBy a'.
Proof.
  intros Hp. apply le_sorted_unique; try apply sortBy_sorted.
  rewrite (sortBy_perm a), Hp. symmetry. apply sortBy_perm.
Qed.

Lemma pairwise_diff_nil a :
  forall b, List.length a = List.length b -> pairwise_diff a b = [] -> a = b.
Proof.
  unfold pairwise_diff.
  induction a as [|x a IH]; intros [|y b] Hlen Hd; simpl in *;
    try discriminate; auto.
  destruct (eqb_spec x y) as [->|Hne]; simpl in Hd; [|discriminate].
  f_equal. apply IH; auto.
Qed.

Lemma pairwise_diff_length_sym a :
  forall b, List.length (pairwise_diff a b) = List.length (pairwise_diff b a).
Proof.
  unfold pairwise_diff.
  induction a as [|x a IH]; intros [|y b]; simpl; auto.
  rewrite (eqb_sym y x).
  destruct (eqb x y); simpl; rewrite IH; reflexivity.
Qed.

Lemma compareCarts_equal_length a b :
  List.length a = List.length b ->
  compareCarts a b = DArray (pairwise_diff (sortBy a) (sortBy b)).
Proof.
  intros Hlen. unfold compareCarts. rewrite Hlen, Nat.eqb_refl. f_equal.
  apply (filter_from_pairwise []). rewrite !sortBy_length. exact Hlen.
Qed.

Lemma compareCarts_array_length a b items :
  compareCarts a b = DArray items -> List.length a = List.length b.
Proof.
  unfold compareCarts.
  destruct (Nat.eqb_spec (List.length a) (List.length b)); auto. discriminate.
Qed.

Lemma filter_from_keeps {A} (f : A -> nat -> bool) x l :
  (forall i, f x i = true) ->
  forall k, In x l -> In x (filter_from f k l).
Proof.
  intros Hf. induction l as [|y l IH]; simpl; intros k Hin; auto.
  destruct Hin as [->|Hin].
  - rewrite Hf. left. reflexivity.
  - destruct (f y k); [right|]; auto.
Qed.

Lemma strict_neq_at_absent x arr i : ~ In x arr -> strict_neq_at x arr i = true.
Proof.
  intros Hno. unfold strict_neq_at.
  destruct (nth_error arr i) as [other|] eqn:Hn; auto.
  apply nth_error_In in Hn.
  destruct (eqb_spec x other) as [->|]; [contradiction|reflexivity].
Qed.

Lemma filter_from_sorted {A} (R : A -> A -> Prop) (f : A -> nat -> bool) l :
  StronglySorted R l -> forall k, StronglySorted R (filter_from f k l).
Proof.
  induction 1 as [|x l Hs IH Hx]; simpl; intros k; [constructor|].
  destruct (f x k); auto.
  constructor; auto.
  rewrite Forall_forall in *. intros y Hy.
  apply filter_from_In in Hy. auto.
Qed.

Lemma filter_from_length {A} (f : A -> nat -> bool) l :
  forall k, (List.length (filter_from f k l) <= List.length l)%nat.
Proof.
  induction l as [|x l IH]; simpl; intros k; auto.
  destruct (f x k); simpl; specialize (IH (S k)); lia.
Qed.

End ComparatorMore.

Import ComparatorMore.

(** X1.  [compareCarts] reports no difference exactly when its arguments
    hold the same identifiers with the same multiplicities, in whatever
    order. *)
Theorem compareCarts_empty_iff_permutation (a b : list jsstring) :
  compareCarts a b = DArray [] <-> Permutation a b.
Proof.
  split.
  - intros Hc.
    pose proof (compareCarts_array_length _ _ Hc) as Hlen.
    rewrite (compareCarts_equal_length _ _ Hlen) in Hc.
    injection Hc as Hd.
    apply pairwise_diff_nil in Hd; [|rewrite !sortBy_length; exact Hlen].
    rewrite <- (sortBy_perm a), Hd. apply sortBy_perm.
  - intros Hp. unfold compareCarts.
    rewrite (Permutation_length Hp), Nat.eqb_refl.
    rewrite (sortBy_perm_invariant Hp). f_equal.
    apply (filter_from_self []).
Qed.

(** X2.  The result of [compareCarts] does not depend on the order of the
    identifiers within either argument. *)
Theorem compareCarts_order_independent (a a' b b' : list jsstring) :
  Permutation a a' -> Permutation b b' ->
  compareCarts a b = compareCarts a' b'.
Proof.
  intros Ha Hb. unfold compareCarts.
  rewrite (Permutation_length Ha), (Permutation_length Hb).
  rewrite (sortBy_perm_invariant Ha), (sortBy_perm_invariant Hb).
  reflexivity.
Qed.

Lemma compareCarts_order_independent_witness :
  compareCarts [lit "/b"; lit "/a"; lit "/c"] [lit "/d"; lit "/a"; lit "/b"]
  = compareCarts [lit "/a"; lit "/b"; lit "/c"] [lit "/a"; lit "/b"; lit "/d"].
Proof.
  apply compareCarts_order_independent.
  - apply perm_swap.
  - apply perm_trans with [lit "/a"; lit "/d"; lit "/b"].
    + apply perm_swap.
    + apply perm_skip. apply perm_swap.
Defined.

(** X3.  For equal-length arguments, every identifier of the first argument
    that does not occur in the second is reported. *)
Theorem compareCarts_reports_missing (a b items : list jsstring)
  (x : jsstring) :
  compareCarts a b = DArray items ->
  In x a -> ~ In x b -> In x items.
Proof.
  intros Hc Ha Hb. unfold compareCarts in Hc.
  destruct (Nat.eqb (List.length a) (List.length b)); [|discriminate].
  injection Hc as <-. apply filter_from_keeps.
  - intros i. apply strict_neq_at_absent.
    intros Hin. apply Hb. apply (Permutation_in _ (sortBy_perm b)). exact Hin.
  - apply (Permutation_in _ (Permutation_sym (sortBy_perm a))). exact Ha.
Qed.

Lemma compareCarts_reports_missing_witness :
  In (lit "/c") [lit "/c"].
Proof.
  apply (@compareCarts_reports_missing
           [lit "/a"; lit "/c"] [lit "/a"; lit "/b"] [lit "/c"] (lit "/c")
           eq_refl).
  - simpl. right. left. reflexivity.
  - cbv. intuition congruence.
Defined.

(** X4.  Swapping the arguments of [compareCarts] keeps the kind of the
    result and the number of reported identifiers, though not the
    identifiers themselves. *)
Theorem compareCarts_swap (a b : list jsstring) :
  match compareCarts a b, compareCarts b a with
  | DFalse, DFalse => True
  | DArray items, DArray items' => List.length items = List.length items'
  | _, _ => False
  end.
Proof.
  destruct (Nat.eqb_spec (List.length a) (List.length b)) as [Hlen|Hne].
  - rewrite (compareCarts_equal_length _ _ Hlen).
    rewrite (compareCarts_equal_length _ _ (eq_sym Hlen)).
    apply pairwise_diff_length_sym.
  - unfold compareCarts.
    destruct (Nat.eqb_spec (List.length a) (List.length b)); [contradiction|].
    destruct (Nat.eqb_spec (List.length b) (List.length a)); [congruence|].
    exact I.
Qed.

(** X5.  The identifiers [compareCarts] reports come in non-decreasing
    order, whatever the order of the input, and are no more than the first
    argument holds. *)
Theorem compareCarts_report_sorted (a b items : list jsstring) :
  compareCarts a b = DArray items ->
  StronglySorted le items /\ (List.length items <= List.length a)%nat.
Proof.
  intros Hc. unfold compareCarts in Hc.
  destruct (Nat.eqb (List.length a) (List.length b)); [|discriminate].
  injection Hc as <-. split.
  - apply filter_from_sorted. apply sortBy_sorted.
  - rewrite <- (sortBy_length a). apply filter_from_length.
Qed.

Lemma compareCarts_report_sorted_witness :
  StronglySorted le [lit "/b"; lit "/c"] /\
  (List.length [lit "/b"; lit "/c"] <= List.length [lit "/c"; lit "/b"])%nat.
Proof.
  apply (@compareCarts_report_sorted
           [lit "/c"; lit "/b"] [lit "/a"; lit "/d"] [lit "/b"; lit "/c"]).
  reflexivity.
Defined.

(** ** The clients, continued *)

Module ClientsMore.

Section WithRuntime.
Variable rt : runtime.

Lemma getWriteableCartObject_cases host cartAtId auth w :
  getWriteableCartObject rt host cartAtId auth w
  = match rt_fetch rt (requests w) (cart_request rt host cartAtId auth) with
    | inl e =>
        (Resolved VUndefined,
         sent_and_logged w (cart_request rt host cartAtId auth) Stderr
           "Retrieving writeable cart object" (FetchError e))
    | inr response =>
        if ok response then
          match rt_JSON_parse rt (body response) with
          | Some cart =>
              (Resolved cart, sent w (cart_request rt host cartAtId auth))
          | None =>
              (Resolved VUndefined,
               sent_and_logged w (cart_request rt host cartAtId auth) Stderr
                 "Retrieving writeable cart object" (FetchError "invalid-json"))
          end
        else
          (Resolved VUndefined,
           sent_and_logged w (cart_request rt host cartAtId auth) Stderr
             "Retrieving writeable cart object" (ErrorOf response))
    end.
Proof.
  unfold getWriteableCartObject, catch, bind, fetch, response_json.
  destruct (rt_fetch rt _ _) as [e|response]; [reflexivity|].
  destruct (ok response); [|reflexivity].
  destruct (rt_JSON_parse rt _); reflexivity.
Qed.

Lemma searchCart_cases host cartId auth w :
  searchCart rt host cartId auth w
  = match rt_fetch rt (requests w) (cart_search_request rt host cartId auth) with
    | inl e =>
        (Resolved VUndefined,
         sent_and_logged w (cart_search_request rt host cartId auth) Stderr
           "SEARCH CART ERROR %o" (FetchError e))
    | inr response =>
        if ok response then
          match rt_JSON_parse rt (body response) with
          | Some results =>
              match graph_ids rt results with
              | Resolved ids =>
                  (Resolved ids,
                   sent w (cart_search_request rt host cartId auth))
              | Thrown e =>
                  (Resolved VUndefined,
                   sent_and_logged w (cart_search_request rt host cartId auth)
                     Stderr "SEARCH CART ERROR %o" e)
              end
          | None =>
              (Resolved VUndefined,
               sent_and_logged w (cart_search_request rt host cartId auth)
                 Stderr "SEARCH CART ERROR %o" (FetchError "invalid-json"))
          end
        else
          (Resolved VUndefined,
           sent_and_logged w (cart_search_request rt host cartId auth) Stderr
             "SEARCH CART ERROR %o" (ErrorOf response))
    end.
Proof.
  unfold searchCart, catch, bind, fetch, response_json, lift.
  destruct (rt_fetch rt _ _) as [e|response]; [reflexivity|].
  destruct (ok response); [|reflexivity].
  destruct (rt_JSON_parse rt _) as [results|]; [|reflexivity]. simpl.
  destruct (graph_ids rt results); reflexivity.
Qed.

Lemma getSearchIds_cases host query auth w :
  getSearchIds rt host query auth w
  = match rt_fetch rt (requests w) (search_request rt host query auth) with
    | inl e =>
        (Resolved VUndefined,
         sent_and_logged w (search_request rt host query auth) Stdout
           "OBJECT LOAD ERROR: %s" (FetchError e))
    | inr response =>
        if ok response then
          match rt_JSON_parse rt (body response) with
          | Some results =>
              match graph_ids rt results with
              | Resolved ids =>
                  (Resolved ids, sent w (search_request rt host query auth))
              | Thrown e =>
                  (Resolved VUndefined,
                   sent_and_logged w (search_request rt host query auth)
                     Stdout "OBJECT LOAD ERROR: %s" e)
              end
          | None =>
              (Resolved VUndefined,
               sent_and_logged w (search_request rt host query auth)
                 Stdout "OBJECT LOAD ERROR: %s" (FetchError "invalid-json"))
          end
        else
          (Resolved VUndefined,
           sent_and_logged w (search_request rt host query auth) Stdout
             "OBJECT LOAD ERROR: %s" (ErrorNotOk response))
    end.
Proof.
  unfold getSearchIds, catch, bind, fetch, response_json, lift.
  destruct (rt_fetch rt _ _) as [e|response]; [reflexivity|].
  destruct (ok response); [|reflexivity].
  destruct (rt_JSON_parse rt _) as [results|]; [|reflexivity]. simpl.
  destruct (graph_ids rt results); reflexivity.
Qed.

Lemma writeCart_cases host cart auth w identifier :
  Get rt cart (lit "identifier") = Resolved identifier ->
  writeCart rt host cart auth w
  = match rt_fetch rt (requests w)
            (cart_put_request rt host identifier cart auth) with
    | inl e =>
        (Resolved VUndefined,
         sent_and_logged w (cart_put_request rt host identifier cart auth)
           Stdout "OBJECT LOAD ERROR: %s" (FetchError e))
    | inr response =>
        if ok response then
          match rt_JSON_parse rt (body response) with
          | Some results =>
              match graph_first_elements rt results with
              | Resolved elements =>
                  (Resolved elements,
                   sent w (cart_put_request rt host identifier cart auth))
              | Thrown e =>
                  (Resolved VUndefined,
                   sent_and_logged w
                     (cart_put_request rt host identifier cart auth)
                     Stdout "OBJECT LOAD ERROR: %s" e)
              end
          | None =>
              (Resolved VUndefined,
               sent_and_logged w (cart_put_request rt host identifier cart auth)
                 Stdout "OBJECT LOAD ERROR: %s" (FetchError "invalid-json"))
          end
        else
          (Resolved VUndefined,
           sent_and_logged w (cart_put_request rt host identifier cart auth)
             Stdout "OBJECT LOAD ERROR: %s" (ErrorNotOk response))
    end.
Proof.
  intros Hid.
  unfold writeCart, catch, bind, fetch, response_json, lift.
  rewrite Hid.
  destruct (rt_fetch rt _ _) as [e|response]; [reflexivity|].
  destruct (ok response); [|reflexivity].
  destruct (rt_JSON_parse rt _) as [results|]; [|reflexivity]. simpl.
  destruct (graph_first_elements rt results); reflexivity.
Qed.

Lemma readable_Get v k : readable v = true -> Get rt v k = Resolved (field rt v k).
Proof. destruct v; simpl; intros H; try discriminate; reflexivity. Qed.

Lemma Array_map_unreadable k items :
  forallb readable items = false ->
  exists msg,
    Array_map (fun item => Get rt item k) items = Thrown (TypeError msg).
Proof.
  induction items as [|x items IH]; simpl; [discriminate|].
  intros H. destruct x; simpl in *; eauto;
    destruct (IH H) as [msg ->]; simpl; eauto.
Qed.

(** An envelope without an array of readable elements under [@graph] makes
    the extraction throw a [TypeError]. *)
Lemma graph_ids_malformed props :
  (forall items, assoc (lit "@graph") props = Some (VArray items) ->
                 forallb readable items = false) ->
  exists msg, graph_ids rt (VObject props) = Thrown (TypeError msg).
Proof.
  intros H. unfold graph_ids. simpl. unfold field. simpl.
  destruct (assoc (lit "@graph") props) as [graph|] eqn:Hg.
  - destruct graph; simpl; eauto.
    destruct (Array_map_unreadable (lit "@id") _ (H _ eq_refl)) as [msg ->].
    simpl. eauto.
  - rewrite rt_proto_script by (simpl; auto). simpl. eauto.
Qed.

Lemma graph_first_elements_missing props items :
  assoc (lit "@graph") props = Some (VArray items) ->
  match items with
  | [] => True
  | first :: _ => readable first = false
  end ->
  exists msg, graph_first_elements rt (VObject props) = Thrown (TypeError msg).
Proof.
  intros Hg Hfirst. unfold graph_first_elements.
  assert (Hgraph : Get rt (VObject props) (lit "@graph")
                   = Resolved (VArray items)).
  { simpl. unfold field. simpl. rewrite Hg. reflexivity. }
  rewrite Hgraph. cbn [obind].
  destruct items as [|first rest].
  - assert (Hzero : Get rt (VArray []) (lit "0") = Resolved VUndefined).
    { simpl. unfold field. simpl. rewrite rt_proto_script by (simpl; auto).
      reflexivity. }
    rewrite Hzero. simpl. eauto.
  - assert (Hzero : Get rt (VArray (first :: rest)) (lit "0") = Resolved first)
      by reflexivity.
    rewrite Hzero. cbn [obind].
    destruct first; simpl in *; try discriminate; eauto.
Qed.

Lemma one_request_sent w req : one_request w req (sent w req).
Proof. split; [reflexivity|]. left. reflexivity. Qed.

Lemma one_request_logged w req s format e :
  one_request w req (sent_and_logged w req s format e).
Proof. split; [reflexivity|]. right. eexists. reflexivity. Qed.

Lemma getSearchIds_one_request host query auth w :
  one_request w (search_request rt host query auth)
    (snd (getSearchIds rt host query auth w)).
Proof.
  rewrite getSearchIds_cases.
  destruct (rt_fetch rt _ _) as [e|response];
    [apply one_request_logged|].
  destruct (ok response); [|apply one_request_logged].
  destruct (rt_JSON_parse rt _) as [results|]; [|apply one_request_logged].
  destruct (graph_ids rt results);
    [apply one_request_sent|apply one_request_logged].
Qed.

Lemma getWriteableCartObject_one_request host cartId auth w :
  one_request w (cart_request rt host cartId auth)
    (snd (getWriteableCartObject rt host cartId auth w)).
Proof.
  rewrite getWriteableCartObject_cases.
  destruct (rt_fetch rt _ _) as [e|response];
    [apply one_request_logged|].
  destruct (ok response); [|apply one_request_logged].
  destruct (rt_JSON_parse rt _);
    [apply one_request_sent|apply one_request_logged].
Qed.

Lemma searchCart_one_request host cartId auth w :
  one_request w (cart_search_request rt host cartId auth)
    (snd (searchCart rt host cartId auth w)).
Proof.
  rewrite searchCart_cases.
  destruct (rt_fetch rt _ _) as [e|response];
    [apply one_request_logged|].
  destruct (ok response); [|apply one_request_logged].
  destruct (rt_JSON_parse rt _) as [results|]; [|apply one_request_logged].
  destruct (graph_ids rt results);
    [apply one_request_sent|apply one_request_logged].
Qed.

Lemma writeCart_one_request host cart auth w :
  readable cart = true ->
  one_request w
    (cart_put_request rt host (field rt cart (lit "identifier")) cart auth)
    (snd (writeCart rt host cart auth w)).
Proof.
  intros Hr.
  rewrite (@writeCart_cases host cart auth w _
             (@readable_Get cart (lit "identifier") Hr)).
  destruct (rt_fetch rt _ _) as [e|response];
    [apply one_request_logged|].
  destruct (ok response); [|apply one_request_logged].
  destruct (rt_JSON_parse rt _) as [results|]; [|apply one_request_logged].
  destruct (graph_first_elements rt results);
    [apply one_request_sent|apply one_request_logged].
Qed.

Lemma writeCart_resolves host cart auth w :
  readable cart = true ->
  exists v w', writeCart rt host cart auth w = (Resolved v, w').
Proof.
  intros H.
  rewrite (@writeCart_cases host cart auth w _
             (@readable_Get cart (lit "identifier") H)).
  destruct (rt_fetch rt _ _) as [e|response]; [eauto|].
  destruct (ok response); [|eauto].
  destruct (rt_JSON_parse rt _) as [results|]; [|eauto].
  destruct (graph_first_elements rt results); eauto.
Qed.

End WithRuntime.

End ClientsMore.

Import ClientsMore.

(** X6.  The Cart Reader resolves to the parsed body of a 2xx response,
    whole and unchanged, and logs nothing.  When the request is rejected,
    the status is not 2xx or the body is not JSON, it writes the error to
    stderr and resolves to [undefined]. *)
Theorem getWriteableCartObject_behaviour (rt : runtime) (host cartAtId : val)
  (auth : jsstring) (w : world) :
  (forall response cart,
      rt_fetch rt (requests w) (cart_request rt host cartAtId auth)
      = inr response ->
      ok response = true ->
      rt_JSON_parse rt (body response) = Some cart ->
      getWriteableCartObject rt host cartAtId auth w
      = (Resolved cart, sent w (cart_request rt host cartAtId auth))) /\
  (forall response,
      rt_fetch rt (requests w) (cart_request rt host cartAtId auth)
      = inr response ->
      ok response = false \/ rt_JSON_parse rt (body response) = None ->
      exists e,
        getWriteableCartObject rt host cartAtId auth w
        = (Resolved VUndefined,
           sent_and_logged w (cart_request rt host cartAtId auth) Stderr
             "Retrieving writeable cart object" e)) /\
  (forall e,
      rt_fetch rt (requests w) (cart_request rt host cartAtId auth) = inl e ->
      getWriteableCartObject rt host cartAtId auth w
      = (Resolved VUndefined,
         sent_and_logged w (cart_request rt host cartAtId auth) Stderr
           "Retrieving writeable cart object" (FetchError e))).
Proof.
  rewrite getWriteableCartObject_cases. repeat split.
  - intros response cart -> -> ->. reflexivity.
  - intros response -> [->|Hp]; [eauto|].
    destruct (ok response); [rewrite Hp|]; eauto.
  - intros e ->. reflexivity.
Qed.

(** X7.  A request that the network rejects is a soft failure in all four
    clients: each writes the error to the console and resolves to
    [undefined]. *)
Theorem rejected_request_is_soft (rt : runtime) (host query cartId cart : val)
  (identifier : val) (auth : jsstring) (w : world) (e : host_error) :
  (rt_fetch rt (requests w) (search_request rt host query auth) = inl e ->
   getSearchIds rt host query auth w
   = (Resolved VUndefined,
      sent_and_logged w (search_request rt host query auth) Stdout
        "OBJECT LOAD ERROR: %s" (FetchError e))) /\
  (rt_fetch rt (requests w) (cart_request rt host cartId auth) = inl e ->
   getWriteableCartObject rt host cartId auth w
   = (Resolved VUndefined,
      sent_and_logged w (cart_request rt host cartId auth) Stderr
        "Retrieving writeable cart object" (FetchError e))) /\
  (Get rt cart (lit "identifier") = Resolved identifier ->
   rt_fetch rt (requests w) (cart_put_request rt host identifier cart auth)
   = inl e ->
   writeCart rt host cart auth w
   = (Resolved VUndefined,
      sent_and_logged w (cart_put_request rt host identifier cart auth) Stdout
        "OBJECT LOAD ERROR: %s" (FetchError e))) /\
  (rt_fetch rt (requests w) (cart_search_request rt host cartId auth) = inl e ->
   searchCart rt host cartId auth w
   = (Resolved VUndefined,
      sent_and_logged w (cart_search_request rt host cartId auth) Stderr
        "SEARCH CART ERROR %o" (FetchError e))).
Proof.
  repeat split.
  - intros H. rewrite getSearchIds_cases, H. reflexivity.
  - intros H. rewrite getWriteableCartObject_cases, H. reflexivity.
  - intros Hid H. rewrite (@writeCart_cases rt host cart auth w identifier Hid), H. reflexivity.
  - intros H. rewrite searchCart_cases, H. reflexivity.
Qed.

(** X8.  The Cart Writer rejects when it is given no cart: on [undefined]
    or [null] the read of [cart.identifier] throws while the arguments of
    [fetch] are evaluated, before any request is made and outside the reach
    of the handler.  The call rejects with a [TypeError], sends nothing and
    logs nothing. *)
Theorem writeCart_rejects_without_cart (rt : runtime) (host cart : val)
  (auth : jsstring) (w : world) :
  readable cart = false ->
  exists msg, writeCart rt host cart auth w = (Thrown (TypeError msg), w).
Proof.
  destruct cart; simpl; intros H; try discriminate;
    eexists; unfold writeCart, bind, lift; simpl; reflexivity.
Qed.

Lemma writeCart_rejects_without_cart_witness :
  exists msg,
    writeCart offline_runtime example_server VUndefined example_auth
      empty_world
    = (Thrown (TypeError msg), empty_world).
Proof.
  apply (@writeCart_rejects_without_cart offline_runtime example_server
           VUndefined example_auth empty_world).
  reflexivity.
Defined.

(** X9.  The Cart Search Client reads a 2xx response as the Search Client
    does: from a body with a [@graph] array whose elements are not [null] it
    returns the [@id] of each element in the order of the array. *)
Theorem searchCart_graph_ids (rt : runtime) (host cartId : val)
  (auth : jsstring) (w : world) (response : response)
  (props : list (jsstring * val)) (items : list val) :
  rt_fetch rt (requests w) (cart_search_request rt host cartId auth)
  = inr response ->
  ok response = true ->
  rt_JSON_parse rt (body response) = Some (VObject props) ->
  assoc (lit "@graph") props = Some (VArray items) ->
  forallb readable items = true ->
  searchCart rt host cartId auth w
  = (Resolved (VArray (map (fun item => field rt item (lit "@id")) items)),
     sent w (cart_search_request rt host cartId auth)).
Proof.
  intros Hf Hok Hp Hg Hr.
  rewrite searchCart_cases, Hf, Hok, Hp.
  rewrite (@graph_ids_array rt props items Hg Hr). reflexivity.
Qed.

Lemma searchCart_graph_ids_witness :
  searchCart
    (example_runtime (inl "ENOENT") (fun _ => Some example_search_results)
       (answer 200 (lit "{}")))
    example_server (VString (lit "/carts/1/")) example_auth empty_world
  = (Resolved (VArray [VString (lit "/a/1"); VString (lit "/a/2")]),
     sent empty_world
       (cart_search_request
          (example_runtime (inl "ENOENT") (fun _ => Some example_search_results)
             (answer 200 (lit "{}")))
          example_server (VString (lit "/carts/1/")) example_auth)).
Proof.
  apply (@searchCart_graph_ids
           (example_runtime (inl "ENOENT")
              (fun _ => Some example_search_results) (answer 200 (lit "{}")))
           example_server (VString (lit "/carts/1/")) example_auth empty_world
           {| status := 200; body := lit "{}" |}
           [(lit "@graph",
             VArray [VObject [(lit "@id", VString (lit "/a/1"))];
                     VObject [(lit "@id", VString (lit "/a/2"))]])]
           [VObject [(lit "@id", VString (lit "/a/1"))];
            VObject [(lit "@id", VString (lit "/a/2"))]]);
    reflexivity.
Defined.

(** X10.  The Search Client returns identifiers only from an envelope of the
    expected shape.  When the body of a 2xx response is a JSON object
    without [@graph], or with a [@graph] that is not an array, or with a
    [null] among its elements, the [TypeError] of the extraction is caught:
    the client logs it and resolves to [undefined], not to a shorter list. *)
Theorem getSearchIds_malformed_envelope (rt : runtime) (host query : val)
  (auth : jsstring) (w : world) (response : response)
  (props : list (jsstring * val)) :
  rt_fetch rt (requests w) (search_request rt host query auth) = inr response ->
  ok response = true ->
  rt_JSON_parse rt (body response) = Some (VObject props) ->
  (forall items, assoc (lit "@graph") props = Some (VArray items) ->
                 forallb readable items = false) ->
  exists msg,
    getSearchIds rt host query auth w
    = (Resolved VUndefined,
       sent_and_logged w (search_request rt host query auth) Stdout
         "OBJECT LOAD ERROR: %s" (TypeError msg)).
Proof.
  intros Hf Hok Hp Hbad.
  destruct (@graph_ids_malformed rt props Hbad) as [msg Hm].
  exists msg. rewrite getSearchIds_cases, Hf, Hok, Hp, Hm. reflexivity.
Qed.

Lemma getSearchIds_malformed_envelope_witness :
  exists msg,
    getSearchIds
      (example_runtime (inl "ENOENT")
         (fun _ => Some (VObject [(lit "@graph",
                                   VArray [VObject [(lit "@id",
                                                     VString (lit "/a/1"))];
                                           VNull])]))
         (answer 200 (lit "{}")))
      example_server (VString (lit "type=Experiment")) example_auth empty_world
    = (Resolved VUndefined,
       sent_and_logged empty_world
         (search_request
            (example_runtime (inl "ENOENT")
               (fun _ => Some (VObject [(lit "@graph",
                                         VArray [VObject [(lit "@id",
                                                           VString (lit "/a/1"))];
                                                 VNull])]))
               (answer 200 (lit "{}")))
            example_server (VString (lit "type=Experiment")) example_auth)
         Stdout "OBJECT LOAD ERROR: %s" (TypeError msg)).
Proof.
  apply (@getSearchIds_malformed_envelope
           (example_runtime (inl "ENOENT")
              (fun _ => Some (VObject [(lit "@graph",
                                        VArray [VObject [(lit "@id",
                                                          VString (lit "/a/1"))];
                                                VNull])]))
              (answer 200 (lit "{}")))
           example_server (VString (lit "type=Experiment")) example_auth
           empty_world {| status := 200; body := lit "{}" |}
           [(lit "@graph",
             VArray [VObject [(lit "@id", VString (lit "/a/1"))]; VNull])]
           eq_refl eq_refl eq_refl).
  intros items H. injection H as <-. reflexivity.
Defined.

(** X11.  When the answer to the update is 2xx but its [@graph] array is
    empty, or its first entry is [null], the Cart Writer logs a [TypeError]
    and resolves to [undefined]: the cart was sent, but no element list
    comes back. *)
Theorem writeCart_empty_graph (rt : runtime) (host cart identifier : val)
  (auth : jsstring) (w : world) (response : response)
  (props : list (jsstring * val)) (items : list val) :
  Get rt cart (lit "identifier") = Resolved identifier ->
  rt_fetch rt (requests w) (cart_put_request rt host identifier cart auth)
  = inr response ->
  ok response = true ->
  rt_JSON_parse rt (body response) = Some (VObject props) ->
  assoc (lit "@graph") props = Some (VArray items) ->
  match items with
  | [] => True
  | first :: _ => readable first = false
  end ->
  exists msg,
    writeCart rt host cart auth w
    = (Resolved VUndefined,
       sent_and_logged w (cart_put_request rt host identifier cart auth) Stdout
         "OBJECT LOAD ERROR: %s" (TypeError msg)).
Proof.
  intros Hid Hf Hok Hp Hg Hfirst.
  destruct (@graph_first_elements_missing rt props items Hg Hfirst) as [msg Hm].
  exists msg.
  rewrite (@writeCart_cases rt host cart auth w identifier Hid), Hf, Hok, Hp, Hm.
  reflexivity.
Qed.

Lemma writeCart_empty_graph_witness :
  exists msg,
    writeCart
      (example_runtime (inl "ENOENT")
         (fun _ => Some (VObject [(lit "@graph", VArray [])]))
         (answer 200 (lit "{}")))
      example_server example_cart example_auth empty_world
    = (Resolved VUndefined,
       sent_and_logged empty_world
         (cart_put_request
            (example_runtime (inl "ENOENT")
               (fun _ => Some (VObject [(lit "@graph", VArray [])]))
               (answer 200 (lit "{}")))
            example_server (VString (lit "cart-1")) example_cart example_auth)
         Stdout "OBJECT LOAD ERROR: %s" (TypeError msg)).
Proof.
  apply (@writeCart_empty_graph
           (example_runtime (inl "ENOENT")
              (fun _ => Some (VObject [(lit "@graph", VArray [])]))
              (answer 200 (lit "{}")))
           example_server example_cart (VString (lit "cart-1")) example_auth
           empty_world {| status := 200; body := lit "{}" |}
           [(lit "@graph", VArray [])] []
           eq_refl eq_refl eq_refl eq_refl eq_refl I).
Defined.


(** ** The orchestrator, continued *)

Module MainMore.

Lemma bind_assoc {A B C} (m : M A) (f : A -> M B) (g : B -> M C) w :
  bind (bind m f) g w = bind m (fun a => bind (f a) g) w.
Proof. unfold bind. destruct (m w) as [[a|e] w1]; reflexivity. Qed.

Lemma bind_ext {A B} (m : M A) (f g : A -> M B) w :
  (forall a w1, f a w1 = g a w1) -> bind m f w = bind m g w.
Proof. intros H. unfold bind. destruct (m w) as [[a|e] w1]; auto. Qed.

Section WithRuntime.
Variable rt : runtime.

(** [main] is the selection of the credentials followed by the rest. *)
Lemma main_split program w :
  main rt program w
  = bind (credentials rt program)
      (fun sa => orchestrate rt program (fst sa) (snd sa)) w.
Proof.
  unfold main, credentials.
  repeat (rewrite bind_assoc; apply bind_ext; intros ? ?).
  reflexivity.
Qed.

Lemma quiet_lift {A} (o : outcome A) : quiet (lift o).
Proof. intros w r w' H. apply lift_inv in H. tauto. Qed.

Lemma quiet_ret {A} (a : A) : quiet (ret a).
Proof. intros w r w' H. unfold ret in H. congruence. Qed.

Lemma quiet_bind {A B} (m : M A) (f : A -> M B) :
  quiet m -> (forall a, quiet (f a)) -> quiet (bind m f).
Proof.
  intros Hm Hf w r w'. unfold bind.
  destruct (m w) as [[a|e] w1] eqn:Hmw; intros H.
  - rewrite <- (Hm _ _ _ Hmw). eapply Hf; eauto.
  - rewrite <- (Hm _ _ _ Hmw). congruence.
Qed.

Lemma quiet_readKeyfile keyfile : quiet (readKeyfile rt keyfile).
Proof.
  unfold readKeyfile, readFile.
  apply quiet_bind; intros; apply quiet_lift.
Qed.

Lemma quiet_credentials program : quiet (credentials rt program).
Proof.
  unfold credentials.
  apply quiet_bind; [apply quiet_readKeyfile|intros].
  repeat (apply quiet_bind; [apply quiet_lift|intros]).
  apply quiet_ret.
Qed.

Lemma Put_readable v k x v' : Put v k x = Resolved v' -> readable v' = true.
Proof.
  destruct v; simpl; intros H; try discriminate; injection H as <-; reflexivity.
Qed.

Lemma identifiers_strings ids : identifiers (map VString ids) = Some ids.
Proof.
  induction ids as [|id ids IH]; simpl; auto. rewrite IH. reflexivity.
Qed.

Lemma compareCarts_values_arrays written searched :
  compareCarts_values (identifier_array written) (identifier_array searched)
  = Resolved (Some (compareCarts written searched)).
Proof.
  unfold identifier_array. simpl. rewrite !identifiers_strings. reflexivity.
Qed.

Lemma compareCarts_values_unreadable updatedCart searchedCart :
  readable updatedCart = false \/ readable searchedCart = false ->
  compareCarts_values updatedCart searchedCart
  = Thrown (TypeError "Cannot read property 'length'").
Proof.
  intros [H|H]; destruct updatedCart, searchedCart; try discriminate;
    reflexivity.
Qed.

Lemma length_field ids :
  field rt (identifier_array ids) (lit "length")
  = VNumber (Z.of_nat (List.length ids)).
Proof.
  unfold identifier_array, field. simpl. rewrite length_map. reflexivity.
Qed.

(** The requests of the statements that follow the credentials. *)
Lemma orchestrate_requests program server auth w :
  exists new,
    requests (snd (orchestrate rt program server auth w)) = requests w ++ new /\
    match fst (orchestrate rt program server auth w) with
    | Resolved _ => map req_method new = [GET; GET; PUT; GET]
    | Thrown _ =>
        map req_method new = [GET; GET] \/
        map req_method new = [GET; GET; PUT; GET]
    end.
Proof.
  unfold orchestrate.
  destruct (getSearchIds_resolves rt server (program_query program) auth w)
    as (itemIds & w2 & Hs).
  destruct (getSearchIds_one_request rt server (program_query program) auth w)
    as [Hr2 _].
  rewrite Hs in Hr2. simpl in Hr2.
  rewrite (@bind_step _ _ _ _ _ _ _ Hs). cbv beta.
  destruct (getWriteableCartObject_resolves rt server (program_cart program)
              auth w2) as (cart & w3 & Hc).
  destruct (getWriteableCartObject_one_request rt server (program_cart program)
              auth w2) as [Hr3 _].
  rewrite Hc in Hr3. simpl in Hr3.
  rewrite (@bind_step _ _ _ _ _ _ _ Hc). cbv beta.
  destruct (Put cart (lit "elements") itemIds) as [cart'|e] eqn:HP.
  - rewrite (@bind_lift _ _ (Resolved cart') _ _ cart' eq_refl). cbv beta.
    pose proof (@Put_readable cart (lit "elements") itemIds cart' HP)
      as Hreadable.
    destruct (writeCart_resolves rt server cart' auth w3 Hreadable)
      as (updatedCart & w4 & Hw).
    destruct (writeCart_one_request rt server cart' auth w3 Hreadable)
      as [Hr4 _].
    rewrite Hw in Hr4. simpl in Hr4.
    rewrite (@bind_step _ _ _ _ _ _ _ Hw). cbv beta.
    destruct (searchCart_resolves rt server (program_cart program) auth w4)
      as (searchedCart & w5 & Hsc).
    destruct (searchCart_one_request rt server (program_cart program) auth w4)
      as [Hr5 _].
    rewrite Hsc in Hr5. simpl in Hr5.
    rewrite (@bind_step _ _ _ _ _ _ _ Hsc). cbv beta.
    eexists [_; _; _; _].
    unfold bind at 1, lift at 1.
    destruct (compareCarts_values updatedCart searchedCart) as [[[|items]|]|e];
      simpl; rewrite Hr5, Hr4, Hr3, Hr2, <- !app_assoc; simpl; auto.
  - exists [search_request rt server (program_query program) auth;
            cart_request rt server (program_cart program) auth].
    unfold bind, lift. simpl. rewrite Hr3, Hr2, <- app_assoc. simpl. auto.
Qed.

Lemma main_of_credentials program w0 w1 server auth :
  credentials rt program w0 = (Resolved (server, auth), w1) ->
  main rt program w0 = orchestrate rt program server auth w1.
Proof.
  intros H. rewrite main_split. unfold bind at 1. rewrite H. reflexivity.
Qed.

(** The run from the search to the comparison, when every client
    resolves and the cart can be assigned to. *)
Lemma orchestrate_steps program server auth w1 w2 w3 w4 w5
  itemIds cart cart' updatedCart searchedCart :
  getSearchIds rt server (program_query program) auth w1
  = (Resolved itemIds, w2) ->
  getWriteableCartObject rt server (program_cart program) auth w2
  = (Resolved cart, w3) ->
  Put cart (lit "elements") itemIds = Resolved cart' ->
  writeCart rt server cart' auth w3 = (Resolved updatedCart, w4) ->
  searchCart rt server (program_cart program) auth w4
  = (Resolved searchedCart, w5) ->
  orchestrate rt program server auth w1
  = match compareCarts_values updatedCart searchedCart with
    | Thrown e => (Thrown e, w5)
    | Resolved None => (Resolved OutsideModel, w5)
    | Resolved (Some DFalse) =>
        (Resolved Finished,
         logged w5
           {| log_stream := Stdout;
              log_format := "Different contents Cart size: %s -- Search size %s";
              log_args := [LogValue (field rt updatedCart (lit "length"));
                           LogValue (field rt searchedCart (lit "length"))] |})
    | Resolved (Some (DArray items)) =>
        (Resolved Finished,
         logged w5
           {| log_stream := Stdout;
              log_format := "Differences: %o";
              log_args := [LogDifferences (DArray items)] |})
    end.
Proof.
  intros Hs Hc HP Hw Hsc. unfold orchestrate.
  rewrite (@bind_step _ _ _ _ _ _ _ Hs). cbv beta.
  rewrite (@bind_step _ _ _ _ _ _ _ Hc). cbv beta.
  rewrite (@bind_lift _ _ _ _ _ _ HP). cbv beta.
  rewrite (@bind_step _ _ _ _ _ _ _ Hw). cbv beta.
  rewrite (@bind_step _ _ _ _ _ _ _ Hsc). cbv beta.
  unfold bind at 1, lift at 1.
  destruct (compareCarts_values updatedCart searchedCart) as [[[|items]|]|e];
    reflexivity.
Qed.

Lemma assoc_set_same k x props : assoc k (assoc_set k x props) = Some x.
Proof.
  induction props as [|[k' v] props IH]; simpl.
  - rewrite eqb_refl. reflexivity.
  - destruct (eqb k k') eqn:Hk; simpl; rewrite ?eqb_refl, ?Hk; auto.
Qed.

Lemma assoc_set_other k k' x props :
  k' <> k -> assoc k' (assoc_set k x props) = assoc k' props.
Proof.
  intros Hne. induction props as [|[k0 v] props IH]; simpl.
  - destruct (eqb_spec k' k); [contradiction|reflexivity].
  - destruct (eqb_spec k k0) as [->|Hk0]; simpl.
    + destruct (eqb_spec k' k0); [contradiction|reflexivity].
    + destruct (eqb k' k0); auto.
Qed.

Lemma assoc_set_keys k x props :
  assoc k props <> None -> map fst (assoc_set k x props) = map fst props.
Proof.
  induction props as [|[k' v] props IH]; simpl; [congruence|].
  destruct (eqb_spec k k') as [->|Hk]; simpl; [reflexivity|].
  intros H. rewrite IH by exact H. reflexivity.
Qed.

(** The third request of a run whose Cart Reader resolved to an object. *)
Lemma main_put_request program w0 w1 w2 w3 server itemIds props auth :
  credentials rt program w0 = (Resolved (server, auth), w1) ->
  getSearchIds rt server (program_query program) auth w1
  = (Resolved itemIds, w2) ->
  getWriteableCartObject rt server (program_cart program) auth w2
  = (Resolved (VObject props), w3) ->
  nth_error (requests (snd (main rt program w0))) (List.length (requests w3))
  = Some (cart_put_request rt server
            (field rt (VObject props) (lit "identifier"))
            (VObject (assoc_set (lit "elements") itemIds props)) auth).
Proof.
  intros Hcr Hs Hc.
  assert (Hreadable :
            readable (VObject (assoc_set (lit "elements") itemIds props)) = true)
    by reflexivity.
  destruct (writeCart_resolves rt server _ auth w3 Hreadable)
    as (updatedCart & w4 & Hw).
  destruct (writeCart_one_request rt server _ auth w3 Hreadable) as [Hr4 _].
  destruct (searchCart_resolves rt server (program_cart program) auth w4)
    as (searchedCart & w5 & Hsc).
  destruct (searchCart_one_request rt server (program_cart program) auth w4)
    as [Hr5 _].
  rewrite Hw in Hr4. rewrite Hsc in Hr5. simpl in Hr4, Hr5.
  rewrite (@main_of_credentials program w0 w1 server auth Hcr).
  rewrite (@orchestrate_steps program server auth w1 w2 w3 w4 w5 _ _ _ _ _
             Hs Hc eq_refl Hw Hsc).
  assert (Hfinal : forall r w', requests w' = requests w5 ->
            nth_error (requests (snd (r : outcome run, w')))
              (List.length (requests w3))
            = Some (cart_put_request rt server
                      (field rt (VObject props) (lit "identifier"))
                      (VObject (assoc_set (lit "elements") itemIds props))
                      auth)).
  { intros r w' Hw'. simpl. rewrite Hw', Hr5, Hr4, <- app_assoc.
    rewrite nth_error_app2, Nat.sub_diag by lia. simpl.
    unfold field. simpl.
    rewrite (@assoc_set_other (lit "elements") (lit "identifier"))
      by discriminate.
    rewrite !rt_proto_script by (simpl; auto 10).
    reflexivity. }
  destruct (compareCarts_values updatedCart searchedCart) as [[[|items]|]|e];
    apply Hfinal; reflexivity.
Qed.

End WithRuntime.

End MainMore.

Import MainMore.

(** X13.  In every run [main] sends no request at all (the credentials
    failed), or the two reads [GET], [GET] (the cart could not be assigned
    to), or the four requests [GET], [GET], [PUT], [GET] in this order.  A
    run that ends without an exception has sent all four. *)
Theorem main_request_discipline (rt : runtime) (program : options)
  (w : world) :
  exists new,
    requests (snd (main rt program w)) = requests w ++ new /\
    match fst (main rt program w) with
    | Resolved _ => map req_method new = [GET; GET; PUT; GET]
    | Thrown _ =>
        map req_method new = [] \/
        map req_method new = [GET; GET] \/
        map req_method new = [GET; GET; PUT; GET]
    end.
Proof.
  rewrite main_split. unfold bind at 1 2.
  pose proof (quiet_credentials rt program) as Hq. unfold quiet in Hq.
  destruct (credentials rt program w) as [[[server auth]|e] w1] eqn:Hc;
    rewrite (Hq _ _ _ Hc).
  - cbn [fst snd].
    destruct (orchestrate_requests rt program server auth w) as (new & Hn & Hm).
    exists new. split; [exact Hn|].
    destruct (fst (orchestrate rt program server auth w)); auto.
  - exists []. simpl. rewrite app_nil_r. auto.
Qed.

(** X14.  A soft failure of the Cart Writer or of the Cart Search Client
    ends the run with an exception all the same: [compareCarts] reads
    [length] of the [undefined] result and [main] rejects with a
    [TypeError].  By then the update of the cart has been sent. *)
Theorem main_fails_after_write (rt : runtime) (program : options)
  (w0 w1 w2 w3 w4 w5 : world) (server itemIds cart cart' : val)
  (updatedCart searchedCart : val) (auth : jsstring) :
  credentials rt program w0 = (Resolved (server, auth), w1) ->
  getSearchIds rt server (program_query program) auth w1
  = (Resolved itemIds, w2) ->
  getWriteableCartObject rt server (program_cart program) auth w2
  = (Resolved cart, w3) ->
  Put cart (lit "elements") itemIds = Resolved cart' ->
  writeCart rt server cart' auth w3 = (Resolved updatedCart, w4) ->
  searchCart rt server (program_cart program) auth w4
  = (Resolved searchedCart, w5) ->
  readable updatedCart = false \/ readable searchedCart = false ->
  main rt program w0
  = (Thrown (TypeError "Cannot read property 'length'"), w5) /\
  In (cart_put_request rt server (field rt cart' (lit "identifier")) cart' auth)
     (requests w5).
Proof.
  intros Hcr Hs Hc HP Hw Hsc Hbad. split.
  - rewrite (@main_of_credentials rt program w0 w1 server auth Hcr).
    rewrite (@orchestrate_steps rt program server auth w1 w2 w3 w4 w5 _ _ _ _ _
             Hs Hc HP Hw Hsc).
    rewrite (@compareCarts_values_unreadable updatedCart searchedCart Hbad). reflexivity.
  - destruct (writeCart_one_request rt server cart' auth w3
                (@Put_readable cart (lit "elements") itemIds cart' HP)) as [Hr4 _].
    destruct (searchCart_one_request rt server (program_cart program) auth w4)
      as [Hr5 _].
    rewrite Hw in Hr4. rewrite Hsc in Hr5. simpl in Hr4, Hr5.
    rewrite Hr5, Hr4. apply in_or_app. left.
    apply in_or_app. right. left. reflexivity.
Qed.

Lemma main_fails_after_write_witness :
  fst (main refusing_runtime example_options empty_world)
  = Thrown (TypeError "Cannot read property 'length'").
Proof.
  rewrite (proj1
             (@main_fails_after_write refusing_runtime example_options
                empty_world empty_world _ _ _ _
                example_server
                (VArray [VString (lit "/a/1"); VString (lit "/a/2")])
                example_cart _ VUndefined (VArray []) example_auth
                eq_refl eq_refl eq_refl eq_refl eq_refl eq_refl
                (or_introl eq_refl))).
  reflexivity.
Defined.

(** X15.  When the Cart Writer and the Cart Search Client both resolve to
    arrays of identifiers, [main] ends normally after writing exactly one
    more line, the one [compareCarts] decides: the two sizes when they
    differ, the list of differences otherwise. *)
Theorem main_reports_comparison (rt : runtime) (program : options)
  (w0 w1 w2 w3 w4 w5 : world) (server itemIds cart cart' : val)
  (written searched : list jsstring) (auth : jsstring) :
  credentials rt program w0 = (Resolved (server, auth), w1) ->
  getSearchIds rt server (program_query program) auth w1
  = (Resolved itemIds, w2) ->
  getWriteableCartObject rt server (program_cart program) auth w2
  = (Resolved cart, w3) ->
  Put cart (lit "elements") itemIds = Resolved cart' ->
  writeCart rt server cart' auth w3 = (Resolved (identifier_array written), w4) ->
  searchCart rt server (program_cart program) auth w4
  = (Resolved (identifier_array searched), w5) ->
  main rt program w0
  = (Resolved Finished,
     logged w5 (report (compareCarts written searched)
                  (List.length written) (List.length searched))).
Proof.
  intros Hcr Hs Hc HP Hw Hsc.
  rewrite (@main_of_credentials rt program w0 w1 server auth Hcr).
  rewrite (@orchestrate_steps rt program server auth w1 w2 w3 w4 w5 _ _ _ _ _
             Hs Hc HP Hw Hsc).
  rewrite compareCarts_values_arrays, !length_field.
  destruct (compareCarts written searched); reflexivity.
Qed.

Lemma main_reports_comparison_witness :
  fst (main (example_server_runtime [lit "/a/2"; lit "/a/1"]
               [lit "/a/1"; lit "/a/2"])
         example_options empty_world)
  = Resolved Finished /\
  last (console
          (snd (main (example_server_runtime [lit "/a/2"; lit "/a/1"]
                        [lit "/a/1"; lit "/a/2"])
                  example_options empty_world)))
       (report DFalse 0 0)
  = report (DArray []) 2 2.
Proof.
  rewrite (@main_reports_comparison
             (example_server_runtime [lit "/a/2"; lit "/a/1"]
                [lit "/a/1"; lit "/a/2"])
             example_options empty_world empty_world _ _ _ _
             example_server
             (VArray [VString (lit "/a/1"); VString (lit "/a/2")])
             example_cart _ [lit "/a/2"; lit "/a/1"] [lit "/a/1"; lit "/a/2"]
             example_auth
             eq_refl eq_refl eq_refl eq_refl eq_refl eq_refl).
  split; reflexivity.
Defined.

(** X16.  The cart [main] writes is the cart it read with [elements]
    replaced by the search result.  When the server of the credentials is
    the string [host] and the cart that was read is an object whose
    [identifier] is a string, the request that follows the two reads is a
    [PUT] to [host/carts/identifier] with the authorization header of the
    credentials; its body is the JSON text of an object that holds the
    search result under [elements] and every other property as it was
    read, with its names in the order of the cart whenever the cart had
    [elements] already. *)
Theorem main_writes_fetched_cart (rt : runtime) (program : options)
  (w0 w1 w2 w3 : world) (host identifier : jsstring) (itemIds : val)
  (props : list (jsstring * val)) (auth : jsstring) :
  credentials rt program w0 = (Resolved (VString host, auth), w1) ->
  getSearchIds rt (VString host) (program_query program) auth w1
  = (Resolved itemIds, w2) ->
  getWriteableCartObject rt (VString host) (program_cart program) auth w2
  = (Resolved (VObject props), w3) ->
  assoc (lit "identifier") props = Some (VString identifier) ->
  exists written,
    nth_error (requests (snd (main rt program w0))) (List.length (requests w3))
    = Some {| req_method := PUT;
              req_url := host ++ lit "/carts/" ++ identifier;
              req_authorization := auth;
              req_body := Some (rt_JSON_stringify rt (VObject written)) |} /\
    List.length (requests w3) = (List.length (requests w0) + 2)%nat /\
    assoc (lit "elements") written = Some itemIds /\
    (forall k, k <> lit "elements" -> assoc k written = assoc k props) /\
    (assoc (lit "elements") props <> None -> map fst written = map fst props).
Proof.
  intros Hcr Hs Hc Hid.
  exists (assoc_set (lit "elements") itemIds props).
  split; [|split; [|split; [|split]]].
  - rewrite (@main_put_request rt program w0 w1 w2 w3 (VString host) itemIds
               props auth Hcr Hs Hc).
    unfold cart_put_request, field. simpl. rewrite Hid. reflexivity.
  - pose proof (@quiet_credentials rt program w0 _ _ Hcr) as ->.
    rewrite (@getWriteableCartObject_requests rt _ _ _ _ _ _ Hc).
    rewrite (@getSearchIds_requests rt _ _ _ _ _ _ Hs).
    rewrite !length_app. simpl. lia.
  - apply assoc_set_same.
  - intros k Hk. apply assoc_set_other. exact Hk.
  - intros Hel. apply assoc_set_keys. exact Hel.
Qed.

Lemma main_writes_fetched_cart_witness :
  exists written,
    nth_error
      (requests (snd (main (example_server_runtime [] []) example_options
                        empty_world))) 2
    = Some {| req_method := PUT;
              req_url := lit "http://localhost:6543/carts/cart-1";
              req_authorization := example_auth;
              req_body := Some (lit "{}") |} /\
    assoc (lit "elements") written
    = Some (VArray [VString (lit "/a/1"); VString (lit "/a/2")]) /\
    assoc (lit "identifier") written = Some (VString (lit "cart-1")).
Proof.
  destruct (@main_writes_fetched_cart (example_server_runtime [] [])
              example_options empty_world empty_world
              (snd (getSearchIds (example_server_runtime [] []) example_server
                      (program_query example_options) example_auth
                      empty_world))
              (snd (getWriteableCartObject (example_server_runtime [] [])
                      example_server (program_cart example_options)
                      example_auth
                      (snd (getSearchIds (example_server_runtime [] [])
                              example_server (program_query example_options)
                              example_auth empty_world))))
              (lit "http://localhost:6543") (lit "cart-1")
              (VArray [VString (lit "/a/1"); VString (lit "/a/2")])
              [(lit "identifier", VString (lit "cart-1"));
               (lit "elements",
                VArray [VString (lit "/x/1"); VString (lit "/x/2")])]
              example_auth eq_refl eq_refl eq_refl eq_refl)
    as (written & Hput & _ & Hel & Hother & _).
  exists written. split; [exact Hput|]. split; [exact Hel|].
  rewrite Hother by discriminate. reflexivity.
Defined.

(** X17.  An entry of the key file without a [secret] is not detected: the
    template literal turns the missing value into the text ["undefined"],
    and the credentials are built for that secret without any failure. *)
Theorem credentials_missing_secret (rt : runtime) (program : options)
  (w : world) (contents key header : jsstring)
  (props eprops : list (jsstring * val)) :
  rt_readFile rt (program_keyfile program) "utf8" = inr contents ->
  rt_JSON_parse rt contents = Some (VObject props) ->
  assoc (ToString rt (program_key program)) props = Some (VObject eprops) ->
  assoc (lit "key") eprops = Some (VString key) ->
  assoc (lit "secret") eprops = None ->
  keypairToAuth key (lit "undefined") = Resolved header ->
  credentials rt program w
  = (Resolved (field rt (VObject eprops) (lit "server"), header), w).
Proof.
  intros Hfile Hparse Hentry Hkey Hsecret Hauth.
  assert (Hk : readKeyfile rt (program_keyfile program) w
               = (Resolved (VObject props), w)).
  { unfold readKeyfile, readFile, bind, lift, JSON_parse.
    rewrite Hfile, Hparse. reflexivity. }
  assert (He : Get rt (VObject props) (ToString rt (program_key program))
               = Resolved (VObject eprops)).
  { simpl. unfold field. simpl. rewrite Hentry. reflexivity. }
  assert (Hgk : Get rt (VObject eprops) (lit "key") = Resolved (VString key)).
  { simpl. unfold field. simpl. rewrite Hkey. reflexivity. }
  assert (Hgs : Get rt (VObject eprops) (lit "secret") = Resolved VUndefined).
  { simpl. unfold field. simpl. rewrite Hsecret.
    rewrite rt_proto_script by (simpl; auto 10). reflexivity. }
  unfold credentials.
  rewrite (@bind_step _ _ _ _ _ _ _ Hk). cbv beta.
  rewrite (@bind_lift _ _ _ _ _ _ He). cbv beta.
  rewrite (@bind_lift _ _ _ _ _ _ (eq_refl
             : Get rt (VObject eprops) (lit "server")
               = Resolved (field rt (VObject eprops) (lit "server")))).
  cbv beta.
  rewrite (@bind_lift _ _ _ _ _ _ He). cbv beta.
  rewrite (@bind_lift _ _ _ _ _ _ Hgk). cbv beta.
  rewrite (@bind_lift _ _ _ _ _ _ He). cbv beta.
  rewrite (@bind_lift _ _ _ _ _ _ Hgs). cbv beta.
  change (ToString rt (VString key)) with key.
  change (ToString rt VUndefined) with (lit "undefined").
  rewrite (@bind_lift _ _ _ _ _ _ Hauth). reflexivity.
Qed.

Lemma credentials_missing_secret_witness :
  credentials
    (scripted_runtime (inr (lit "<keypairs>"))
       [(lit "<keypairs>",
         VObject [(lit "localhost",
                   VObject [(lit "server", example_server);
                            (lit "key", VString (lit "ABCDEFGH"))])])]
       [])
    example_options empty_world
  = (Resolved (example_server, lit "Basic QUJDREVGR0g6dW5kZWZpbmVk"),
     empty_world).
Proof.
  apply (@credentials_missing_secret
           (scripted_runtime (inr (lit "<keypairs>"))
              [(lit "<keypairs>",
                VObject [(lit "localhost",
                          VObject [(lit "server", example_server);
                                   (lit "key", VString (lit "ABCDEFGH"))])])]
              [])
           example_options empty_world (lit "<keypairs>") (lit "ABCDEFGH")
           (lit "Basic QUJDREVGR0g6dW5kZWZpbmVk")
           [(lit "localhost",
             VObject [(lit "server", example_server);
                      (lit "key", VString (lit "ABCDEFGH"))])]
           [(lit "server", example_server);
            (lit "key", VString (lit "ABCDEFGH"))]);
    reflexivity.
Defined.

(** X18.  When the key file cannot be read, [readFile] rejects with the
    error of the file system, [JSON.parse] is never reached, and the error
    ends [main] before anything is sent or logged. *)
Theorem keyfile_read_error (rt : runtime) (program : options) (w : world)
  (err : host_error) :
  rt_readFile rt (program_keyfile program) "utf8" = inl err ->
  readFile rt (program_keyfile program) "utf8" w = (Thrown (SystemError err), w) /\
  readKeyfile rt (program_keyfile program) w = (Thrown (SystemError err), w) /\
  main rt program w = (Thrown (SystemError err), w).
Proof.
  intros Hfile.
  assert (Hr : readFile rt (program_keyfile program) "utf8" w
               = (Thrown (SystemError err), w)).
  { unfold readFile, lift. rewrite Hfile. reflexivity. }
  assert (Hk : readKeyfile rt (program_keyfile program) w
               = (Thrown (SystemError err), w)).
  { unfold readKeyfile. apply bind_thrown. exact Hr. }
  split; [exact Hr|]. split; [exact Hk|].
  apply main_keyfile_thrown. exact Hk.
Qed.

Lemma keyfile_read_error_witness :
  main (example_runtime (inl "ENOENT") example_parse (inl "ECONNREFUSED"))
    example_options empty_world
  = (Thrown (SystemError "ENOENT"), empty_world).
Proof.
  apply (@keyfile_read_error
           (example_runtime (inl "ENOENT") example_parse (inl "ECONNREFUSED"))
           example_options empty_world "ENOENT" eq_refl).
Defined.

(** ** The Auth Encoder, continued *)

Module AuthMore.

Local Open Scope N_scope.

(** *** Surrogates *)

Lemma lead_not_trail c : is_lead c = true -> is_trail c = false.
Proof.
  unfold is_lead, is_trail. intros H. apply andb_prop in H as [_ H].
  apply N.leb_le in H.
  destruct (N.leb_spec 0xDC00 c); [lia|reflexivity].
Qed.

Lemma unreserved_ascii c : unreserved c = true -> c < 128.
Proof.
  unfold unreserved. simpl existsb. intros H.
  repeat (apply orb_prop in H as [H|H]);
    try (apply andb_prop in H as [_ H]; apply N.leb_le in H; lia);
    try (apply N.eqb_eq in H; lia); discriminate.
Qed.

Lemma unreserved_not_surrogate c :
  unreserved c = true -> is_lead c = false /\ is_trail c = false.
Proof.
  intros H. apply unreserved_ascii in H.
  apply ascii_not_surrogate in H. apply orb_false_elim in H. exact H.
Qed.

(** [encodeURIComponent] throws exactly on the strings that are not
    well formed. *)
Lemma encode_well_formed s :
  if well_formed s then exists escaped, encode_from 0 s = Resolved escaped
  else encode_from 0 s = Thrown (URIError "URI malformed").
Proof.
  assert (H : forall n s, (List.length s <= n)%nat ->
            if well_formed s
            then exists escaped, encode_from 0 s = Resolved escaped
            else encode_from 0 s = Thrown (URIError "URI malformed")).
  { clear s. induction n as [|n IH]; intros [|c s] Hlen; simpl in Hlen;
      try lia; try (simpl; eauto; fail).
    assert (IHs : if well_formed s
                  then exists escaped, encode_from 0 s = Resolved escaped
                  else encode_from 0 s = Thrown (URIError "URI malformed"))
      by (apply IH; lia).
    cbn [encode_from well_formed].
    destruct (unreserved c) eqn:Hun.
    - destruct (unreserved_not_surrogate _ Hun) as [-> ->]. simpl.
      destruct (well_formed s).
      + destruct IHs as [escaped ->]. simpl. eauto.
      + rewrite IHs. reflexivity.
    - unfold CodePointAt.
      destruct (is_lead c) eqn:Hlead.
      + rewrite (lead_not_trail _ Hlead). simpl.
        destruct s as [|d s]; [reflexivity|].
        destruct (is_trail d); simpl; [|reflexivity].
        assert (IHs' : if well_formed s
                       then exists escaped, encode_from 0 s = Resolved escaped
                       else encode_from 0 s = Thrown (URIError "URI malformed"))
          by (apply IH; simpl in Hlen; lia).
        destruct (well_formed s).
        * destruct IHs' as [escaped ->]. simpl. eauto.
        * rewrite IHs'. reflexivity.
      + destruct (is_trail c); simpl; [reflexivity|].
        destruct (well_formed s).
        * destruct IHs as [escaped ->]. simpl. eauto.
        * rewrite IHs. reflexivity. }
  apply (H (List.length s)). lia.
Qed.

(** The colon keeps the key and the secret apart: a surrogate at the end of
    the key cannot pair with one at the start of the secret. *)
Lemma well_formed_colon key secret :
  well_formed (key ++ lit ":" ++ secret)
  = well_formed key && well_formed secret.
Proof.
  assert (H : forall n key, (List.length key <= n)%nat ->
            well_formed (key ++ lit ":" ++ secret)
            = well_formed key && well_formed secret).
  { clear key. induction n as [|n IH]; intros [|c key] Hlen; simpl in Hlen;
      try lia; try reflexivity.
    cbn [app well_formed].
    destruct (is_lead c).
    - destruct key as [|d key]; [reflexivity|].
      cbn [app]. rewrite IH by (simpl in Hlen; lia).
      rewrite andb_assoc. reflexivity.
    - rewrite IH by lia. rewrite andb_assoc. reflexivity. }
  apply (H (List.length key)). lia.
Qed.

(** *** The octets of a code point *)

(** As [enumerate], for goals that also hold inequalities. *)
Ltac enumerate_bounds H :=
  vm_compute in H;
  repeat (destruct H as [<-|H];
          [try (vm_compute; repeat split;
                first [reflexivity | discriminate])|]);
  try contradiction.

Lemma marker_6 x :
  x < 64 ->
  0x80 <= N.lor 0x80 x /\ N.lor 0x80 x < 0xC0 /\
  N.land (N.lor 0x80 x) 0x3F = x /\
  N.lor 0x80 x = 0x80 + x.
Proof. intros H. apply (below_In 64) in H. enumerate_bounds H. Qed.

Lemma marker_5 x :
  x < 32 ->
  0xC0 <= N.lor 0xC0 x /\ N.lor 0xC0 x < 0xE0 /\
  N.land (N.lor 0xC0 x) 0x1F = x /\
  N.lor 0xC0 x = 0xC0 + x.
Proof. intros H. apply (below_In 32) in H. enumerate_bounds H. Qed.

Lemma marker_4 x :
  x < 16 ->
  0xE0 <= N.lor 0xE0 x /\ N.lor 0xE0 x < 0xF0 /\
  N.land (N.lor 0xE0 x) 0x0F = x /\
  N.lor 0xE0 x = 0xE0 + x.
Proof. intros H. apply (below_In 16) in H. enumerate_bounds H. Qed.

Lemma marker_3 x :
  x < 8 ->
  0xF0 <= N.lor 0xF0 x /\ N.lor 0xF0 x < 0xF8 /\
  N.land (N.lor 0xF0 x) 0x07 = x /\
  N.lor 0xF0 x = 0xF0 + x.
Proof. intros H. apply (below_In 8) in H. enumerate_bounds H. Qed.

Lemma low_6 a : N.land a 0x3F < 64.
Proof.
  change 0x3F with (N.ones 6). rewrite N.land_ones.
  apply N.mod_lt. discriminate.
Qed.

Lemma shiftr_below a n bound :
  a < bound * 2 ^ n -> N.shiftr a n < bound.
Proof.
  intros H. rewrite N.shiftr_div_pow2.
  apply N.Div0.div_lt_upper_bound.
  rewrite N.mul_comm. exact H.
Qed.

(** Every octet of a code point fits in a byte, and a code point outside
    ASCII has no ASCII octet. *)
Lemma utf8_octets_range cp :
  cp < 0x110000 ->
  Forall (fun b => b < 256 /\ (128 <= cp -> 128 <= b)) (utf8_octets cp).
Proof.
  intros Hcp. unfold utf8_octets.
  destruct (N.ltb_spec cp 0x80) as [H1|H1].
  { repeat constructor; lia. }
  destruct (N.ltb_spec cp 0x800) as [H2|H2].
  { destruct (@marker_5 (N.shiftr cp 6)) as (? & ? & _);
      [apply shiftr_below; simpl; lia|].
    destruct (@marker_6 (N.land cp 0x3F) (low_6 cp)) as (? & ? & _).
    repeat constructor; lia. }
  destruct (N.ltb_spec cp 0x10000) as [H3|H3].
  { destruct (@marker_4 (N.shiftr cp 12)) as (? & ? & _);
      [apply shiftr_below; simpl; lia|].
    destruct (@marker_6 (N.land (N.shiftr cp 6) 0x3F) (low_6 _)) as (? & ? & _).
    destruct (@marker_6 (N.land cp 0x3F) (low_6 cp)) as (? & ? & _).
    repeat constructor; lia. }
  destruct (@marker_3 (N.shiftr cp 18)) as (? & ? & _);
    [apply shiftr_below; simpl; lia|].
  destruct (@marker_6 (N.land (N.shiftr cp 12) 0x3F) (low_6 _)) as (? & ? & _).
  destruct (@marker_6 (N.land (N.shiftr cp 6) 0x3F) (low_6 _)) as (? & ? & _).
  destruct (@marker_6 (N.land cp 0x3F) (low_6 cp)) as (? & ? & _).
  repeat constructor; lia.
Qed.

Lemma CodePointAt_range first rest cp count :
  first < 65536 -> Forall (fun c => c < 65536) rest ->
  CodePointAt first rest = Some (cp, count) ->
  cp < 0x110000 /\ (128 <= first -> 128 <= cp).
Proof.
  intros Hfirst Hrest. unfold CodePointAt.
  destruct (is_lead first) eqn:Hlead; simpl.
  - destruct (is_trail first); [discriminate|].
    destruct rest as [|second rest]; [discriminate|].
    destruct (is_trail second) eqn:Htrail; [|discriminate].
    intros H. injection H as <- _.
    unfold is_lead in Hlead. apply andb_prop in Hlead as [Hl1 Hl2].
    unfold is_trail in Htrail. apply andb_prop in Htrail as [Ht1 Ht2].
    apply N.leb_le in Hl1, Hl2, Ht1, Ht2. lia.
  - destruct (is_trail first); simpl; [discriminate|].
    intros H. injection H as <- _. lia.
Qed.

(** *** [unescape] after [encodeURIComponent] *)

Lemma unescape_percents bs rest :
  Forall (fun b => b < 256) bs ->
  unescape_from 0 (List.concat (map percent bs) ++ rest)
  = bs ++ unescape_from 0 rest.
Proof.
  induction 1 as [|b bs Hb Hbs IH]; [reflexivity|].
  cbn [map List.concat]. rewrite <- !app_assoc.
  rewrite (@unescape_percent b _ Hb). rewrite IH. reflexivity.
Qed.

Lemma utf8_octets_octets cp : cp < 0x110000 -> octets (utf8_octets cp).
Proof.
  intros H. apply utf8_octets_range in H.
  eapply Forall_impl; [|exact H]. simpl. tauto.
Qed.

(** On a well-formed string [unescape(encodeURIComponent(s))] is the
    string whose code units are the octets of the UTF-8 encoding of [s]. *)
Lemma unescape_encode_utf8 s :
  well_formed s = true -> sixteen_bit s ->
  exists escaped,
    encode_from 0 s = Resolved escaped /\
    unescape_from 0 escaped = buffer_from 0 s.
Proof.
  assert (H : forall n s, (List.length s <= n)%nat ->
            well_formed s = true -> sixteen_bit s ->
            exists escaped,
              encode_from 0 s = Resolved escaped /\
              unescape_from 0 escaped = buffer_from 0 s).
  { clear s. induction n as [|n IH]; intros [|c s] Hlen Hwf Hbits;
      simpl in Hlen; try lia; try (exists []; split; reflexivity).
    inversion Hbits as [|? ? Hc Hs]; subst.
    cbn [encode_from buffer_from well_formed] in *.
    destruct (unreserved c) eqn:Hun.
    - destruct (unreserved_not_surrogate _ Hun) as [Hlead Htrail].
      rewrite Hlead, Htrail in Hwf. simpl in Hwf.
      destruct (IH s ltac:(lia) Hwf Hs) as (escaped & -> & Hu).
      exists (c :: escaped). split; [reflexivity|].
      cbn [unescape_from].
      rewrite (@unreserved_not_percent c Hun), Hu.
      unfold CodePointAt. rewrite Hlead, Htrail. simpl.
      unfold utf8_octets.
      destruct (N.ltb_spec c 128) as [_|Hge];
        [reflexivity|apply unreserved_ascii in Hun; lia].
    - destruct (CodePointAt c s) as [[cp count]|] eqn:Hcp.
      + destruct (@CodePointAt_range c s cp count Hc Hs Hcp) as [Hrange _].
        assert (Hrest : exists escaped,
                   encode_from (count - 1) s = Resolved escaped /\
                   unescape_from 0 escaped = buffer_from (count - 1) s).
        { unfold CodePointAt in Hcp.
          destruct (is_lead c) eqn:Hlead.
          - rewrite (lead_not_trail _ Hlead) in Hcp. simpl in Hcp.
            destruct s as [|d s]; [discriminate|].
            destruct (is_trail d) eqn:Htrail; [|discriminate].
            injection Hcp as _ <-. simpl in Hwf.
            inversion Hs; subst.
            apply (IH s); auto. simpl in Hlen. lia.
          - destruct (is_trail c) eqn:Htrail; simpl in Hcp; [discriminate|].
            injection Hcp as _ <-. simpl in Hwf.
            apply (IH s); auto. lia. }
        destruct Hrest as (escaped & -> & Hu).
        eexists. split; [reflexivity|].
        rewrite unescape_percents by (apply utf8_octets_octets; exact Hrange).
        rewrite Hu. reflexivity.
      + exfalso. unfold CodePointAt in Hcp.
        destruct (is_lead c) eqn:Hlead.
        * rewrite (lead_not_trail _ Hlead) in Hcp. simpl in Hcp.
          destruct s as [|d s]; [discriminate|].
          apply andb_prop in Hwf as [Htrail _]. rewrite Htrail in Hcp.
          discriminate.
        * destruct (is_trail c); simpl in *; discriminate. }
  intros Hwf Hbits. apply (H (List.length s)); auto.
Qed.

(** *** [Buffer.from] *)

Lemma buffer_from_octets s :
  sixteen_bit s -> forall skip, octets (buffer_from skip s).
Proof.
  induction 1 as [|c s Hc Hs IH]; intros [|skip]; cbn [buffer_from];
    try constructor; auto.
  destruct (CodePointAt c s) as [[cp count]|] eqn:Hcp.
  - apply Forall_app. split; [|apply IH].
    apply utf8_octets_octets.
    apply (@CodePointAt_range c s cp count Hc Hs Hcp).
  - apply Forall_app. split; [|apply IH].
    repeat constructor.
Qed.

Lemma octets_sixteen_bit s : octets s -> sixteen_bit s.
Proof. apply Forall_impl. intros c Hc. lia. Qed.

(** A colon in the encoding comes from a colon in the string. *)
Lemma buffer_from_colon s :
  sixteen_bit s -> forall skip, In 58 (buffer_from skip s) -> In 58 s.
Proof.
  induction 1 as [|c s Hc Hs IH]; intros [|skip]; cbn [buffer_from];
    auto; try (intros H; right; eapply IH; exact H).
  destruct (CodePointAt c s) as [[cp count]|] eqn:Hcp.
  - intros H. apply in_app_or in H as [H|H]; [|right; eapply IH; exact H].
    left.
    destruct (@CodePointAt_range c s cp count Hc Hs Hcp) as [Hcp1 Hcp2].
    pose proof (utf8_octets_range Hcp1) as Hrange.
    rewrite Forall_forall in Hrange. destruct (Hrange _ H) as [_ Hhigh].
    assert (Hlow : c < 128) by lia.
    unfold CodePointAt in Hcp. rewrite (ascii_not_surrogate Hlow) in Hcp.
    simpl in Hcp. injection Hcp as <- _.
    unfold utf8_octets in H. destruct (N.ltb_spec c 128); [|lia].
    destruct H as [H|[]]. exact H.
  - intros H. apply in_app_or in H as [H|H]; [|right; eapply IH; exact H].
    simpl in H. destruct H as [H|[H|[H|[]]]]; discriminate.
Qed.

Lemma buffer_from_app key rest :
  well_formed key = true ->
  buffer_from 0 (key ++ rest) = buffer_from 0 key ++ buffer_from 0 rest.
Proof.
  assert (H : forall n key, (List.length key <= n)%nat ->
            well_formed key = true ->
            buffer_from 0 (key ++ rest)
            = buffer_from 0 key ++ buffer_from 0 rest).
  { clear key. induction n as [|n IH]; intros [|c key] Hlen Hwf;
      simpl in Hlen; try lia; try reflexivity.
    cbn [app buffer_from well_formed] in *. unfold CodePointAt.
    destruct (is_lead c) eqn:Hlead.
    - rewrite (lead_not_trail _ Hlead). simpl.
      destruct key as [|d key]; [discriminate|].
      apply andb_prop in Hwf as [Htrail Hwf].
      cbn [app]. rewrite Htrail. cbn [Nat.sub buffer_from].
      rewrite IH by (auto; simpl in Hlen; lia).
      rewrite app_assoc. reflexivity.
    - apply andb_prop in Hwf as [Htrail Hwf].
      apply negb_true_iff in Htrail. rewrite Htrail. simpl.
      rewrite IH by (auto; lia).
      rewrite app_assoc. reflexivity. }
  apply (H (List.length key)). lia.
Qed.

(** *** Reading a string of octets back *)

Lemma two_octets x :
  x < 128 ->
  (N.lor 0xC0 (N.shiftr (128 + x) 6) <? 0x80) = false /\
  (0xC2 <=? N.lor 0xC0 (N.shiftr (128 + x) 6))
  && (N.lor 0xC0 (N.shiftr (128 + x) 6) <=? 0xDF) = true /\
  continuation (N.lor 0x80 (N.land (128 + x) 0x3F)) = true /\
  N.lor (N.shiftl (N.land (N.lor 0xC0 (N.shiftr (128 + x) 6)) 0x1F) 6)
        (N.land (N.lor 0x80 (N.land (128 + x) 0x3F)) 0x3F)
  = 128 + x.
Proof. intros H. apply (below_In 128) in H. enumerate H. Qed.

(** [Buffer.from] on a string of octets is undone by UTF-8 decoding. *)
Lemma utf8_decode_octet_string t :
  octets t -> utf8_decode (buffer_from 0 t) = Some t.
Proof.
  induction 1 as [|c t Hc Ht IH]; [reflexivity|].
  cbn [buffer_from]. unfold CodePointAt.
  assert (Hsur : is_lead c || is_trail c = false).
  { unfold is_lead, is_trail.
    destruct (N.leb_spec 0xD800 c), (N.leb_spec 0xDC00 c); simpl; auto; lia. }
  rewrite Hsur. simpl negb. cbv iota. cbn [Nat.sub].
  unfold utf8_octets.
  destruct (N.ltb_spec c 0x80) as [Hlow|Hhigh].
  - cbn [app utf8_decode].
    destruct (N.ltb_spec c 0x80); [|lia]. rewrite IH. reflexivity.
  - destruct (N.ltb_spec c 0x800); [|lia].
    assert (Hx : c - 128 < 128) by lia.
    destruct (two_octets Hx) as (H0 & H1 & H2 & H3).
    replace (128 + (c - 128)) with c in * by lia.
    cbn [app utf8_decode]. rewrite H0, H1, H2, H3, IH. reflexivity.
Qed.

(** *** UTF-8 decoding after encoding *)

Lemma lor_shiftl x y n : y < 2 ^ n -> N.lor (N.shiftl x n) y = x * 2 ^ n + y.
Proof.
  intros Hy. rewrite <- N.shiftl_mul_pow2.
  assert (Hland : N.land (N.shiftl x n) y = 0).
  { apply N.bits_inj. intros m. rewrite N.land_spec, N.bits_0.
    destruct (N.lt_ge_cases m n) as [Hm|Hm].
    - rewrite N.shiftl_spec_low by exact Hm. reflexivity.
    - assert (Hbit : N.testbit y m = false).
      { destruct (N.eq_dec y 0) as [->|Hy0]; [apply N.bits_0|].
        apply N.bits_above_log2.
        apply N.lt_le_trans with n; [|exact Hm].
        apply N.log2_lt_pow2; [lia|exact Hy]. }
      rewrite Hbit. apply andb_false_r. }
  rewrite <- (N.lxor_lor _ _ Hland). symmetry.
  apply N.add_nocarry_lxor. exact Hland.
Qed.

(** The low six bits of a number and the rest. *)
Lemma split_6 a :
  exists q r,
    a = 64 * q + r /\ r < 64 /\ N.shiftr a 6 = q /\ N.land a 0x3F = r.
Proof.
  exists (a / 64), (a mod 64). repeat split.
  - apply N.div_mod. discriminate.
  - apply N.mod_lt. discriminate.
  - apply N.shiftr_div_pow2.
  - change 0x3F with (N.ones 6). apply N.land_ones.
Qed.

(** The decoder on a sequence that starts with two, three or four octets
    of the right form. *)
Lemma decode_2 b0 b1 rest :
  0xC2 <= b0 -> b0 <= 0xDF -> continuation b1 = true ->
  utf8_decode (b0 :: b1 :: rest)
  = option_map
      (cons (N.lor (N.shiftl (N.land b0 0x1F) 6) (N.land b1 0x3F)))
      (utf8_decode rest).
Proof.
  intros H0 H1 Hb1. cbn [utf8_decode].
  destruct (N.ltb_spec b0 0x80); [lia|].
  destruct (N.leb_spec 0xC2 b0); [|lia].
  destruct (N.leb_spec b0 0xDF); [|lia].
  simpl andb. cbv iota. rewrite Hb1. reflexivity.
Qed.

Lemma decode_3 b0 b1 b2 rest cp :
  0xE0 <= b0 -> b0 <= 0xEF ->
  continuation b1 = true -> continuation b2 = true ->
  N.lor (N.shiftl (N.land b0 0x0F) 12)
    (N.lor (N.shiftl (N.land b1 0x3F) 6) (N.land b2 0x3F)) = cp ->
  0x800 <= cp -> is_lead cp || is_trail cp = false ->
  utf8_decode (b0 :: b1 :: b2 :: rest) = option_map (cons cp) (utf8_decode rest).
Proof.
  intros H0 H1 Hb1 Hb2 Hcp Hmin Hsur. cbn [utf8_decode].
  destruct (N.ltb_spec b0 0x80); [lia|].
  destruct (N.leb_spec 0xC2 b0); [|lia].
  destruct (N.leb_spec b0 0xDF); [lia|].
  destruct (N.leb_spec 0xE0 b0); [|lia].
  destruct (N.leb_spec b0 0xEF); [|lia].
  simpl andb at 1 2. cbv iota beta zeta.
  rewrite Hcp, Hb1, Hb2, Hsur.
  destruct (N.leb_spec 0x800 cp); [|lia]. reflexivity.
Qed.

Lemma decode_4 b0 b1 b2 b3 rest cp :
  0xF0 <= b0 -> b0 <= 0xF4 ->
  continuation b1 = true -> continuation b2 = true -> continuation b3 = true ->
  N.lor (N.shiftl (N.land b0 0x07) 18)
    (N.lor (N.shiftl (N.land b1 0x3F) 12)
       (N.lor (N.shiftl (N.land b2 0x3F) 6) (N.land b3 0x3F))) = cp ->
  0x10000 <= cp -> cp <= 0x10FFFF ->
  utf8_decode (b0 :: b1 :: b2 :: b3 :: rest)
  = option_map (app (utf16_units cp)) (utf8_decode rest).
Proof.
  intros H0 H1 Hb1 Hb2 Hb3 Hcp Hmin Hmax. cbn [utf8_decode].
  destruct (N.ltb_spec b0 0x80); [lia|].
  destruct (N.leb_spec 0xC2 b0); [|lia].
  destruct (N.leb_spec b0 0xDF); [lia|].
  destruct (N.leb_spec 0xE0 b0); [|lia].
  destruct (N.leb_spec b0 0xEF); [lia|].
  destruct (N.leb_spec 0xF0 b0); [|lia].
  destruct (N.leb_spec b0 0xF4); [|lia].
  simpl andb at 1 2 3. cbv iota beta zeta.
  rewrite Hcp, Hb1, Hb2, Hb3.
  destruct (N.leb_spec 0x10000 cp); [|lia].
  destruct (N.leb_spec cp 0x10FFFF); [|lia]. reflexivity.
Qed.

Lemma continuation_marker x :
  x < 64 -> continuation (N.lor 0x80 x) = true /\
            N.land (N.lor 0x80 x) 0x3F = x.
Proof.
  intros H. destruct (marker_6 H) as (Hlo & Hhi & Hland & _).
  split; [|exact Hland]. unfold continuation.
  destruct (N.leb_spec 0x80 (N.lor 0x80 x)); [|lia].
  destruct (N.leb_spec (N.lor 0x80 x) 0xBF); [reflexivity|lia].
Qed.

(** Decoding the octets of a code point of the Basic Multilingual Plane
    that is not a surrogate yields the code point. *)
Lemma utf8_decode_bmp c rest :
  c < 65536 -> is_lead c || is_trail c = false ->
  utf8_decode (utf8_octets c ++ rest) = option_map (cons c) (utf8_decode rest).
Proof.
  intros Hc Hsur. unfold utf8_octets.
  destruct (split_6 c) as (q0 & r0 & Hc0 & Hr0 & Hs0 & Hl0).
  destruct (split_6 q0) as (q1 & r1 & Hc1 & Hr1 & Hs1 & Hl1).
  destruct (N.ltb_spec c 0x80) as [H1|H1].
  { cbn [app utf8_decode]. destruct (N.ltb_spec c 0x80); [reflexivity|lia]. }
  destruct (N.ltb_spec c 0x800) as [H2|H2].
  { cbn [app]. rewrite Hs0, Hl0.
    assert (Hx : q0 < 32) by lia.
    destruct (marker_5 Hx) as (_ & _ & Hl5 & Hs5).
    destruct (continuation_marker Hr0) as (Hcont & Hl6).
    rewrite decode_2 by (auto; lia).
    rewrite Hl5, Hl6, lor_shiftl by exact Hr0.
    change (2 ^ 6) with 64.
    replace (q0 * 64 + r0) with c by lia. reflexivity. }
  destruct (N.ltb_spec c 0x10000) as [H3|H3]; [|lia].
  cbn [app]. change 12 with (6 + 6).
  rewrite <- N.shiftr_shiftr, Hs0, Hs1, Hl1, Hl0.
  assert (Hx : q1 < 16) by lia.
  destruct (marker_4 Hx) as (_ & _ & Hl4 & Hs4).
  destruct (continuation_marker Hr1) as (Hcont1 & Hl61).
  destruct (continuation_marker Hr0) as (Hcont0 & Hl60).
  apply decode_3; auto; try lia.
  rewrite Hl4, Hl61, Hl60.
  rewrite (@lor_shiftl r1 r0 6) by exact Hr0.
  change (2 ^ 6) with 64.
  rewrite lor_shiftl by (change (2 ^ (6 + 6)) with 4096; lia).
  change (2 ^ (6 + 6)) with 4096. lia.
Qed.

(** Decoding the octets of the code point of a surrogate pair yields the
    pair. *)
Lemma utf8_decode_pair c d rest :
  is_lead c = true -> is_trail d = true ->
  utf8_decode
    (utf8_octets ((c - 0xD800) * 0x400 + (d - 0xDC00) + 0x10000) ++ rest)
  = option_map (app [c; d]) (utf8_decode rest).
Proof.
  intros Hlead Htrail.
  unfold is_lead in Hlead. apply andb_prop in Hlead as [Hl1 Hl2].
  unfold is_trail in Htrail. apply andb_prop in Htrail as [Ht1 Ht2].
  apply N.leb_le in Hl1, Hl2, Ht1, Ht2.
  assert (Hunits :
            utf16_units ((c - 0xD800) * 0x400 + (d - 0xDC00) + 0x10000)
            = [c; d]).
  { unfold utf16_units.
    destruct (N.ltb_spec ((c - 0xD800) * 0x400 + (d - 0xDC00) + 0x10000)
                0x10000); [lia|].
    replace ((c - 0xD800) * 0x400 + (d - 0xDC00) + 0x10000 - 0x10000)
      with ((d - 0xDC00) + (c - 0xD800) * 1024) by lia.
    change 0x3FF with (N.ones 10). rewrite N.land_ones, N.shiftr_div_pow2.
    change (2 ^ 10) with 1024.
    rewrite N.div_add by discriminate.
    rewrite N.Div0.mod_add.
    rewrite N.div_small, N.mod_small by lia.
    f_equal; [lia|]. f_equal. lia. }
  rewrite <- Hunits.
  generalize ((c - 0xD800) * 0x400 + (d - 0xDC00) + 0x10000)
    (ltac:(lia) : 0x10000 <= (c - 0xD800) * 0x400 + (d - 0xDC00) + 0x10000)
    (ltac:(lia) : (c - 0xD800) * 0x400 + (d - 0xDC00) + 0x10000 <= 0x10FFFF).
  clear. intros cp Hmin Hmax.
  unfold utf8_octets.
  destruct (N.ltb_spec cp 0x80); [lia|].
  destruct (N.ltb_spec cp 0x800); [lia|].
  destruct (N.ltb_spec cp 0x10000); [lia|].
  destruct (split_6 cp) as (q0 & r0 & Hc0 & Hr0 & Hs0 & Hl0).
  destruct (split_6 q0) as (q1 & r1 & Hc1 & Hr1 & Hs1 & Hl1).
  destruct (split_6 q1) as (q2 & r2 & Hc2 & Hr2 & Hs2 & Hl2).
  cbn [app]. change 18 with (6 + (6 + 6)). change 12 with (6 + 6).
  rewrite <- !N.shiftr_shiftr, Hs0, Hs1, Hs2, Hl2, Hl1, Hl0.
  assert (Hx : q2 < 8) by lia.
  destruct (marker_3 Hx) as (_ & _ & Hl3 & Hs3).
  destruct (continuation_marker Hr2) as (Hcont2 & Hl62).
  destruct (continuation_marker Hr1) as (Hcont1 & Hl61).
  destruct (continuation_marker Hr0) as (Hcont0 & Hl60).
  apply decode_4; auto; try lia.
  rewrite Hl3, Hl62, Hl61, Hl60.
  rewrite (@lor_shiftl r1 r0 6) by exact Hr0.
  change (2 ^ 6) with 64.
  rewrite (@lor_shiftl r2 _ (6 + 6))
    by (change (2 ^ (6 + 6)) with 4096; lia).
  change (2 ^ (6 + 6)) with 4096.
  rewrite lor_shiftl by (change (2 ^ (6 + (6 + 6))) with 262144; lia).
  change (2 ^ (6 + (6 + 6))) with 262144. lia.
Qed.

(** UTF-8 decoding undoes [Buffer.from] on every well-formed string. *)
Lemma utf8_round_trip s :
  well_formed s = true -> sixteen_bit s ->
  utf8_decode (buffer_from 0 s) = Some s.
Proof.
  assert (H : forall n s, (List.length s <= n)%nat ->
            well_formed s = true -> sixteen_bit s ->
            utf8_decode (buffer_from 0 s) = Some s).
  { clear s. induction n as [|n IH]; intros [|c s] Hlen Hwf Hbits;
      simpl in Hlen; try lia; try reflexivity.
    inversion Hbits as [|? ? Hc Hs]; subst.
    cbn [buffer_from well_formed] in *. unfold CodePointAt.
    destruct (is_lead c) eqn:Hlead.
    - rewrite (lead_not_trail _ Hlead). simpl.
      destruct s as [|d s]; [discriminate|].
      apply andb_prop in Hwf as [Htrail Hwf]. rewrite Htrail.
      cbn [Nat.sub buffer_from].
      inversion Hs; subst.
      rewrite (@utf8_decode_pair c d _ Hlead Htrail).
      rewrite IH by (auto; simpl in Hlen; lia). reflexivity.
    - apply andb_prop in Hwf as [Htrail Hwf].
      apply negb_true_iff in Htrail. rewrite Htrail. simpl.
      rewrite utf8_decode_bmp by (auto; rewrite Hlead, Htrail; reflexivity).
      rewrite IH by (auto; lia). reflexivity. }
  intros Hwf Hbits. apply (H (List.length s)); auto.
Qed.

(** *** Reading the header back *)

Lemma header_reads_back key secret :
  well_formed key && well_formed secret = true ->
  sixteen_bit key -> sixteen_bit secret -> ~ In 58 key ->
  exists header,
    keypairToAuth key secret = Resolved header /\
    decode_auth header = Some (Buffer_from key, Buffer_from secret).
Proof.
  intros Hwf Hkey Hsecret Hcolon.
  pose proof Hwf as Hboth. apply andb_prop in Hboth as [Hwfk Hwfs].
  rewrite <- well_formed_colon in Hwf.
  assert (Hbits : sixteen_bit (key ++ lit ":" ++ secret)).
  { apply Forall_app. split; [exact Hkey|].
    apply Forall_app. split; [|exact Hsecret].
    repeat constructor. }
  destruct (@unescape_encode_utf8 _ Hwf Hbits) as (escaped & He & Hu).
  unfold keypairToAuth, encodeURIComponent, unescape. rewrite He.
  unfold on_resolved. rewrite Hu.
  eexists. split; [reflexivity|].
  pose proof (buffer_from_octets Hbits 0) as Hoct.
  unfold decode_auth. rewrite strip_prefix_app.
  unfold Buffer_from.
  rewrite (base64_round_trip
             (buffer_from_octets (octets_sixteen_bit Hoct) 0)).
  rewrite (utf8_decode_octet_string Hoct).
  rewrite (@buffer_from_app key _ Hwfk).
  change (buffer_from 0 (lit ":" ++ secret)) with (58 :: buffer_from 0 secret).
  apply split_colon_app.
  intros Hin. apply Hcolon. apply (buffer_from_colon Hkey 0 Hin).
Qed.

End AuthMore.

Import AuthMore.

(** X19.  [keypairToAuth] throws a [URIError] exactly when the key or the
    secret holds an unpaired surrogate; for every other pair it returns a
    header. *)
Theorem keypairToAuth_throws_iff (key secret : jsstring) :
  if well_formed key && well_formed secret
  then exists header, keypairToAuth key secret = Resolved header
  else keypairToAuth key secret = Thrown (URIError "URI malformed").
Proof.
  rewrite <- well_formed_colon.
  pose proof (encode_well_formed (key ++ lit ":" ++ secret)) as H.
  unfold keypairToAuth, encodeURIComponent.
  destruct (well_formed (key ++ lit ":" ++ secret)).
  - destruct H as [escaped ->]. simpl. eauto.
  - rewrite H. reflexivity.
Qed.

(** X20.  For a key and a secret without unpaired surrogates the payload of
    the header is the base64 of a double encoding: [unescape] after
    [encodeURIComponent] yields the UTF-8 octets of [key:secret] as a
    string, and [Buffer.from] encodes that string as UTF-8 once more. *)
Theorem keypairToAuth_double_utf8 (key secret : jsstring) :
  well_formed key && well_formed secret = true ->
  sixteen_bit key -> sixteen_bit secret ->
  keypairToAuth key secret
  = Resolved (lit "Basic "
              ++ toString_base64
                   (Buffer_from (Buffer_from (key ++ lit ":" ++ secret)))).
Proof.
  intros Hwf Hkey Hsecret.
  rewrite <- well_formed_colon in Hwf.
  assert (Hbits : sixteen_bit (key ++ lit ":" ++ secret)).
  { apply Forall_app. split; [exact Hkey|].
    apply Forall_app. split; [|exact Hsecret].
    repeat constructor. }
  destruct (@unescape_encode_utf8 _ Hwf Hbits) as (escaped & He & Hu).
  unfold keypairToAuth, encodeURIComponent, unescape. rewrite He.
  unfold on_resolved. rewrite Hu. reflexivity.
Qed.

Lemma keypairToAuth_double_utf8_witness :
  keypairToAuth [233%N] (lit "s")
  = Resolved (lit "Basic "
              ++ toString_base64
                   (Buffer_from (Buffer_from ([233%N] ++ lit ":" ++ lit "s")))).
Proof.
  apply keypairToAuth_double_utf8.
  - reflexivity.
  - repeat (constructor; [reflexivity|]). constructor.
  - repeat (constructor; [reflexivity|]). constructor.
Defined.

(** X21.  Read back by the decoding of the round-trip property, the header
    of a well-formed pair with a colon-free key yields the UTF-8 octets of
    the key and of the secret, each octet as one character; decoding each
    of the two as UTF-8 once more recovers the key and the secret.  One
    decoding is enough only where a string equals its own UTF-8 octets,
    that is on ASCII. *)
Theorem keypairToAuth_reads_back_octets (key secret : jsstring) :
  well_formed key && well_formed secret = true ->
  sixteen_bit key -> sixteen_bit secret -> ~ In 58%N key ->
  exists header,
    keypairToAuth key secret = Resolved header /\
    decode_auth header = Some (Buffer_from key, Buffer_from secret) /\
    utf8_decode (Buffer_from key) = Some key /\
    utf8_decode (Buffer_from secret) = Some secret.
Proof.
  intros Hwf Hkey Hsecret Hcolon.
  destruct (@header_reads_back key secret Hwf Hkey Hsecret Hcolon)
    as (header & Hh & Hd).
  apply andb_prop in Hwf as [Hwfk Hwfs].
  exists header. repeat split; auto; apply utf8_round_trip; auto.
Qed.

Lemma keypairToAuth_reads_back_octets_witness :
  exists header,
    keypairToAuth [233%N] (lit "s") = Resolved header /\
    decode_auth header = Some (Buffer_from [233%N], Buffer_from (lit "s")) /\
    utf8_decode (Buffer_from [233%N]) = Some [233%N] /\
    utf8_decode (Buffer_from (lit "s")) = Some (lit "s").
Proof.
  apply keypairToAuth_reads_back_octets.
  - reflexivity.
  - repeat (constructor; [reflexivity|]). constructor.
  - repeat (constructor; [reflexivity|]). constructor.
  - simpl. intuition discriminate.
Defined.

(** X22.  Distinct credentials give distinct headers: among well-formed
    pairs with colon-free keys, [keypairToAuth] is injective. *)
Theorem keypairToAuth_injective (key secret key' secret' : jsstring) :
  well_formed key && well_formed secret = true ->
  sixteen_bit key -> sixteen_bit secret -> ~ In 58%N key ->
  well_formed key' && well_formed secret' = true ->
  sixteen_bit key' -> sixteen_bit secret' -> ~ In 58%N key' ->
  keypairToAuth key secret = keypairToAuth key' secret' ->
  key = key' /\ secret = secret'.
Proof.
  intros Hwf Hkey Hsecret Hcolon Hwf' Hkey' Hsecret' Hcolon' Heq.
  destruct (@header_reads_back key secret Hwf Hkey Hsecret Hcolon)
    as (header & Hh & Hd).
  destruct (@header_reads_back key' secret' Hwf' Hkey' Hsecret' Hcolon')
    as (header' & Hh' & Hd').
  assert (header = header') as <- by congruence.
  rewrite Hd in Hd'. injection Hd' as Hk Hs.
  apply andb_prop in Hwf as [Hwfk Hwfs].
  apply andb_prop in Hwf' as [Hwfk' Hwfs'].
  pose proof (@utf8_round_trip key Hwfk Hkey) as Rk.
  pose proof (@utf8_round_trip secret Hwfs Hsecret) as Rs.
  pose proof (@utf8_round_trip key' Hwfk' Hkey') as Rk'.
  pose proof (@utf8_round_trip secret' Hwfs' Hsecret') as Rs'.
  unfold Buffer_from in Hk, Hs. rewrite Hk in Rk. rewrite Hs in Rs.
  split; congruence.
Qed.

Lemma keypairToAuth_injective_witness :
  lit "ab" = lit "ab" /\ [233%N] = [233%N].
Proof.
  apply (@keypairToAuth_injective (lit "ab") [233%N] (lit "ab") [233%N]).
  - reflexivity.
  - repeat (constructor; [reflexivity|]). constructor.
  - repeat (constructor; [reflexivity|]). constructor.
  - simpl. intuition discriminate.
  - reflexivity.
  - repeat (constructor; [reflexivity|]). constructor.
  - repeat (constructor; [reflexivity|]). constructor.
  - simpl. intuition discriminate.
  - reflexivity.
Defined.



(** X24.  For a key and a secret of ASCII characters,
    the key without a colon, decoding the base64 payload of the header as
    UTF-8 and splitting at the first colon recovers the key and the
    secret. *)
Theorem keypairToAuth_round_trip_ascii (key secret : jsstring) :
  ascii_only key -> ascii_only secret -> ~ In 58%N key ->
  round_trip key secret.
Proof.
  intros Hkey Hsecret Hcolon.
  assert (Hall : ascii_only (key ++ lit ":" ++ secret)).
  { apply Forall_app. split; [exact Hkey|].
    apply Forall_app. split; [|exact Hsecret].
    repeat constructor. }
  destruct (unescape_encode_ascii Hall) as (escaped & He & Hu).
  unfold round_trip, keypairToAuth. rewrite He. unfold on_resolved.
  eexists. split; [reflexivity|].
  unfold decode_auth. rewrite strip_prefix_app, Hu.
  rewrite (Buffer_from_ascii Hall).
  rewrite (base64_round_trip (ascii_octets Hall)).
  rewrite (utf8_decode_ascii Hall).
  apply split_colon_app. exact Hcolon.
Qed.

Lemma keypairToAuth_round_trip_ascii_witness :
  round_trip (lit "ABCDEFGH") (lit "s3cr3t").
Proof.
  apply keypairToAuth_round_trip_ascii.
  - repeat (constructor; [reflexivity|]). constructor.
  - repeat (constructor; [reflexivity|]). constructor.
  - simpl. intuition discriminate.
Defined.

(** X25.  Two more limits of the round trip: a key with a colon is split
    too early when the header is read back, and an unpaired surrogate makes
    the encoder throw, so that there is no header at all. *)
Theorem keypairToAuth_round_trip_limits :
  (keypairToAuth (lit "a:b") (lit "c") = Resolved (lit "Basic YTpiOmM=") /\
   decode_auth (lit "Basic YTpiOmM=") = Some (lit "a", lit "b:c") /\
   ~ round_trip (lit "a:b") (lit "c")) /\
  (keypairToAuth [0xD800%N] (lit "s") = Thrown (URIError "URI malformed") /\
   ~ round_trip [0xD800%N] (lit "s")).
Proof.
  split; [split; [|split]|split]; try (vm_compute; reflexivity);
    intros (header & Hh & Hd);
    vm_compute in Hh; try discriminate;
    injection Hh as <-; vm_compute in Hd; discriminate.
Qed.
